(** * core/commands/ls.go: the [ls] command, its driver and its tabular renderer

    A shallow embedding of [LsCmd.Run], [LsCmd.PostRun], the text encoder and
    [tabularOutput], followed by the properties of the listing engine.

    Conventions.
    - Go strings are byte strings: [string] (a list of 8-bit [ascii]).
    - [uint64] sizes are [N]; the [int32] type codes are [Z].
    - A Go [error] is represented by its message; [nil] is [None].
    - The request's option table is a finite map from option names to
      values; [v, _ := req.Options[name].(bool)] reads [false] when the
      option is absent.
    - The traversal goroutine and its two channels are represented by what
      the consumer loop observes: the entries received from [results], in
      order, followed by the value received from [lsErr]. *)

From Stdlib Require Import ZArith NArith Ascii String DecimalString Lia.
From stdpp Require Import base option list strings gmap sorting.

Local Open Scope Z_scope.

(** ** Go values used by the command *)

(** A Go [error] value, by its message. *)
Abbreviation Err := string (only parsing).
(** [cid.Cid], opaque to this file. *)
Abbreviation Cid := string (only parsing).
(** [path.Path], opaque to this file. *)
Abbreviation Path := string (only parsing).
(** [os.FileMode] (a [uint32]). *)
Abbreviation FileMode := N (only parsing).
(** [time.Time], as an instant. *)
Abbreviation Time := Z (only parsing).

(** The constants of [unixfs_pb.Data_DataType] (re-exported by [unixfs]). *)
Module unixfs.
Definition TRaw : Z := 0.
Definition TDirectory : Z := 1.
Definition TFile : Z := 2.
Definition TMetadata : Z := 3.
Definition TSymlink : Z := 4.
Definition THAMTShard : Z := 5.
End unixfs.

(** [iface.DirEntry]: what the traversal sends on the [results] channel. *)
Module DirEntry.
Record t := mk {
  Name : string;
  Cid_ : Cid;
  Size : N;
  Type_ : Z;
  Target : string;
  Mode : FileMode;
  ModTime : Time
}.
End DirEntry.

(** [LsLink] contains printable data for a single ipld link in ls output. *)
Module LsLink.
Record t := mk {
  Name : string;
  Hash : string;
  Size : N;
  Type_ : Z;
  Target : string;
  Mode : FileMode;
  ModTime : Time
}.
End LsLink.

(** [LsObject] is an element of [LsOutput]; all or part of a directory. *)
Module LsObject.
Record t := mk {
  Hash : string;
  Links : list LsLink.t
}.
(** The zero value, as in the slots of [make([]LsObject, n)]. *)
Definition zero : t := {| Hash := ""; Links := [] |}.
End LsObject.

(** [LsOutput] is a set of printable data for directories. *)
Module LsOutput.
Record t := mk {
  Objects : list LsObject.t
}.
End LsOutput.

Definition lsHeadersOptionNameTime : string := "headers".
Definition lsResolveTypeOptionName : string := "resolve-type".
Definition lsSizeOptionName : string := "size".
Definition lsStreamOptionName : string := "stream".

(** [cmds.Request], as far as the command reads it. *)
Record Request := {
  Arguments : list string;
  Options : gmap string bool
}.

(** [v, _ := req.Options[name].(bool)] *)
Definition boolOption (req : Request) (name : string) : bool :=
  default false (Options req !! name).

(** ** Go string literals and the fragment of [fmt] the renderer uses *)

Definition TAB : ascii := ascii_of_nat 9.
Definition NL : ascii := ascii_of_nat 10.

(** The value of an interpreted Go string literal: [\t], [\n] and [\\] are
    the escapes that occur in this file. *)
Fixpoint lit (s : string) : string :=
  match s with
  | EmptyString => EmptyString
  | String "\" (String c r) =>
      if Ascii.eqb c "t" then String TAB (lit r)
      else if Ascii.eqb c "n" then String NL (lit r)
      else if Ascii.eqb c "\" then String "\" (lit r)
      else String "\" (String c (lit r))
  | String c r => String c (lit r)
  end.

(** An operand of [Fprintf]. *)
Inductive arg :=
| AString (s : string)
| AUint64 (n : N).

(** [%v] of a [uint64]: its decimal digits. *)
Definition decimal (n : N) : string := NilZero.string_of_uint (N.to_uint n).

(** The text a verb prints for an operand; [None] where [fmt] would print a
    bad-verb marker. *)
Definition printArg (verb : ascii) (a : arg) : option string :=
  match a with
  | AString s =>
      if Ascii.eqb verb "s" || Ascii.eqb verb "v" then Some s else None
  | AUint64 n =>
      if Ascii.eqb verb "v" || Ascii.eqb verb "d" then Some (decimal n) else None
  end.

Definition digitOf (c : ascii) : option nat :=
  let n := nat_of_ascii c in
  if (48 <=? n)%nat && (n <=? 57)%nat then Some (n - 48)%nat else None.

(** Where [doPrintf] is inside a format. *)
Inductive pstate :=
| PText                 (* copying literal text *)
| PVerb                 (* after the percent sign, before the verb *)
| PIndex (n : nat)      (* inside [n...] *)
| PIndexed.             (* after the closing bracket, before the verb *)

(** [fmt]'s [doPrintf], for formats made of literal text, [%%], and the
    verbs [%s], [%v], [%d] with an optional explicit argument index
    [%[n]s].  [argNum] is the next operand to print and [reordered] records
    that an explicit index was used.  The result is [None] for every
    format or operand on which [fmt] prints an error marker (a bad index,
    a missing or extra operand, a verb that does not fit) and for
    directives outside this fragment. *)
Fixpoint doPrintf (format : string) (st : pstate) (argNum : nat)
    (reordered : bool) (a : list arg) : option string :=
  match format with
  | EmptyString =>
      match st with
      | PText =>
          if negb reordered && (argNum <? length a)%nat then None else Some EmptyString
      | _ => None
      end
  | String c rest =>
      match st with
      | PText =>
          if Ascii.eqb c "%" then doPrintf rest PVerb argNum reordered a
          else String c <$> doPrintf rest PText argNum reordered a
      | PVerb =>
          if Ascii.eqb c "%" then String c <$> doPrintf rest PText argNum reordered a
          else if Ascii.eqb c "[" then doPrintf rest (PIndex 0) argNum true a
          else
            x ← a !! argNum;
            s ← printArg c x;
            (String.append s) <$> doPrintf rest PText (S argNum) reordered a
      | PIndex n =>
          if Ascii.eqb c "]" then
            if (1 <=? n)%nat && (n <=? length a)%nat
            then doPrintf rest PIndexed (n - 1) reordered a
            else None
          else
            d ← digitOf c;
            doPrintf rest (PIndex (10 * n + d)) argNum reordered a
      | PIndexed =>
          x ← a !! argNum;
          s ← printArg c x;
          (String.append s) <$> doPrintf rest PText (S argNum) reordered a
      end
  end.

Definition Sprintf (format : string) (a : list arg) : option string :=
  doPrintf format PText 0 false a.

(** A [tabwriter.Writer] before [Flush]: the bytes written to it so far. *)
Abbreviation Writer := string (only parsing).

(** [fmt.Fprintf(tw, format, a...)] *)
Definition Fprintf (tw : Writer) (format : string) (a : list arg) : option Writer :=
  (String.append tw) <$> Sprintf format a.

(** [fmt.Fprintln(tw, a...)] on string operands: the operands separated by
    spaces, then a newline. *)
Definition Fprintln (tw : Writer) (a : list string) : Writer :=
  tw +:+ String.concat " " a +:+ lit "\n".

(** ** The tabular renderer *)

(** The packages the renderer prints with. *)
Class Printing := {
  (** [cmdenv.EscNonPrint]: the escaper of non-printable characters. *)
  EscNonPrint : string -> string;
  (** [text/tabwriter]: what a writer built by
      [tabwriter.NewWriter(w, minwidth, tabwidth, padding, padchar, flags)]
      passes on to [w] for the bytes written to it, once flushed. *)
  tabwriter_Flush : nat -> nat -> nat -> ascii -> nat -> Writer -> string
}.

Section Renderer.

Context {printing : Printing}.

(** The body of [for _, link := range object.Links]: one row. *)
Definition writeLink (size : bool) (tw : Writer) (link : LsLink.t) : option Writer :=
  let t := LsLink.Type_ link in
  let s :=
    if (t =? unixfs.TDirectory) || (t =? unixfs.THAMTShard) || (t =? unixfs.TMetadata)
    then
      if size then lit "%[1]s\t-\t%[3]s/\n" else lit "%[1]s\t%[3]s/\n"
    else
      if size then lit "%s\t%v\t%s\n" else lit "%[1]s\t%[3]s\n" in
  (* TODO: Print link.Mode and link.ModTime? *)
  Fprintf tw s [AString (LsLink.Hash link); AUint64 (LsLink.Size link);
                AString (EscNonPrint (LsLink.Name link))].

Fixpoint writeLinks (size : bool) (tw : Writer) (links : list LsLink.t) : option Writer :=
  match links with
  | [] => Some tw
  | link :: links' =>
      tw' ← writeLink size tw link;
      writeLinks size tw' links'
  end.

(** The body of [for _, object := range out.Objects], on the writer and
    [lastObjectHash]. *)
Definition writeObject (headers size multipleFolders ignoreBreaks : bool)
    (tw : Writer) (lastObjectHash : string) (object : LsObject.t)
    : option (Writer * string) :=
  '(tw, lastObjectHash) ←
    (if negb ignoreBreaks && negb (String.eqb (LsObject.Hash object) lastObjectHash)
     then
       tw ← (if multipleFolders
             then
               let tw := if negb (String.eqb lastObjectHash "")
                         then Fprintln tw [] else tw in
               Fprintf tw (lit "%s:\n") [AString (LsObject.Hash object)]
             else Some tw);
       let tw := if headers
                 then
                   let s := if size then lit "Hash\tSize\tName" else lit "Hash\tName" in
                   Fprintln tw [s]
                 else tw in
       Some (tw, LsObject.Hash object)
     else Some (tw, lastObjectHash));
  tw ← writeLinks size tw (LsObject.Links object);
  Some (tw, lastObjectHash).

Fixpoint writeObjects (headers size multipleFolders ignoreBreaks : bool)
    (tw : Writer) (lastObjectHash : string) (objects : list LsObject.t)
    : option (Writer * string) :=
  match objects with
  | [] => Some (tw, lastObjectHash)
  | object :: objects' =>
      '(tw', last') ← writeObject headers size multipleFolders ignoreBreaks
                        tw lastObjectHash object;
      writeObjects headers size multipleFolders ignoreBreaks tw' last' objects'
  end.

(** [tabularOutput] up to, and without, [tw.Flush()]: the bytes written to
    the tabwriter and the value of [lastObjectHash]. *)
Definition tabularCells (req : Request) (out : LsOutput.t)
    (lastObjectHash : string) (ignoreBreaks : bool) : option (Writer * string) :=
  let headers := boolOption req lsHeadersOptionNameTime in
  let size := boolOption req lsSizeOptionName in
  let multipleFolders := (1 <? length (Arguments req))%nat in
  writeObjects headers size multipleFolders ignoreBreaks "" lastObjectHash
    (LsOutput.Objects out).

(** [tabularOutput(req, w, out, lastObjectHash, ignoreBreaks)]: the bytes
    that reach [w], and the returned [lastObjectHash]. *)
Definition tabularOutput (req : Request) (out : LsOutput.t)
    (lastObjectHash : string) (ignoreBreaks : bool) : option (string * string) :=
  let stream := boolOption req lsStreamOptionName in
  (* in streaming mode we can't automatically align the tabs
     so we take a best guess *)
  let minTabWidth := if stream then 10%nat else 1%nat in
  '(tw, lastObjectHash) ← tabularCells req out lastObjectHash ignoreBreaks;
  Some (tabwriter_Flush minTabWidth 2 1 " "%char 0 tw, lastObjectHash).

(** The loop of [PostRun] for the CLI: [vs] are the values [res.Next()]
    yields before it fails with [final] ([None] for [io.EOF]); [stdout]
    collects what is written to [os.Stdout]. *)
Fixpoint PostRun_loop (req : Request) (vs : list LsOutput.t) (final : option Err)
    (stdout : string) (lastObjectHash : string) : option (string * option Err) :=
  match vs with
  | [] => Some (stdout, final)
  | out :: vs' =>
      '(text, last') ← tabularOutput req out lastObjectHash false;
      PostRun_loop req vs' final (stdout +:+ text) last'
  end.

Definition PostRun (req : Request) (vs : list LsOutput.t) (final : option Err)
    : option (string * option Err) :=
  PostRun_loop req vs final "" "".

(** The [cmds.Text] encoder of one value. *)
Definition TextEncoder (req : Request) (out : LsOutput.t) : option string :=
  (* when streaming over HTTP using a text encoder, we cannot render breaks
     between directories because we don't know the hash of the last
     directory encoder *)
  let ignoreBreaks := boolOption req lsStreamOptionName in
  fst <$> tabularOutput req out "" ignoreBreaks.

(** The calls of [tabularOutput] that a caller makes on the values [vs] when
    it passes each returned [lastObjectHash] on to the next call, as
    [PostRun] does: the bytes written to the tabwriter of each call, and
    the last key. *)
Fixpoint threadCells (req : Request) (ignoreBreaks : bool) (vs : list LsOutput.t)
    (lastObjectHash : string) : option (list Writer * string) :=
  match vs with
  | [] => Some ([], lastObjectHash)
  | out :: vs' =>
      '(tw, last') ← tabularCells req out lastObjectHash ignoreBreaks;
      '(tws, last'') ← threadCells req ignoreBreaks vs' last';
      Some (tw :: tws, last'')
  end.

End Renderer.

(** ** The driver: [LsCmd.Run] *)

(** How a Go call ends: with a value, with a non-nil [error], or in a
    run-time panic (an index out of range). *)
Inductive result (A : Type) :=
| Ok (a : A)
| Error (e : Err)
| Panic.
Arguments Ok {A} a.
Arguments Error {A} e.
Arguments Panic {A}.

(** What a run has done so far, and the variables its closures capture. *)
Record State := {
  emitted : list LsOutput.t;       (* the values handed to [res], in order *)
  lsCalls : list (Path * bool);    (* the calls of [api.Unixfs().Ls]: path
                                      and [ResolveChildren] setting *)
  output : list LsObject.t;        (* [output], captured when [!stream] *)
  outputLinks : list LsLink.t      (* [outputLinks] of the last [processDir()] *)
}.

Definition initial : State :=
  {| emitted := []; lsCalls := []; output := []; outputLinks := [] |}.

Definition M (A : Type) : Type := State -> result A * State.

Definition ret {A} (a : A) : M A := fun st => (Ok a, st).

Definition bind {A B} (m : M A) (k : A -> M B) : M B :=
  fun st =>
    match m st with
    | (Ok a, st') => k a st'
    | (Error e, st') => (Error e, st')
    | (Panic, st') => (Panic, st')
    end.

Declare Scope run_scope.
Delimit Scope run_scope with run.
Notation "'let*' x ':=' m 'in' k" := (bind m (fun x => k))
  (at level 10, x name, m at level 100, k at level 200) : run_scope.
Notation "m ';;;' k" := (bind m (fun _ => k))
  (at level 100, k at level 200, right associativity) : run_scope.

(** [if err != nil { return err }] *)
Definition check (err : option Err) : M unit :=
  fun st => match err with Some e => (Error e, st) | None => (Ok tt, st) end.

(** [v, err := f(); if err != nil { return err }] *)
Definition try {A} (r : Err + A) : M A :=
  fun st => match r with inl e => (Error e, st) | inr a => (Ok a, st) end.

(** [xs[i]] *)
Definition index {A} (xs : list A) (i : nat) : M A :=
  fun st => match xs !! i with Some x => (Ok x, st) | None => (Panic, st) end.

Definition setOutput (v : list LsObject.t) : M unit :=
  fun st => (Ok tt, {| emitted := emitted st; lsCalls := lsCalls st;
                       output := v; outputLinks := outputLinks st |}).

Definition setOutputLinks (v : list LsLink.t) : M unit :=
  fun st => (Ok tt, {| emitted := emitted st; lsCalls := lsCalls st;
                       output := output st; outputLinks := v |}).

Definition getOutput : M (list LsObject.t) := fun st => (Ok (output st), st).

Definition getOutputLinks : M (list LsLink.t) := fun st => (Ok (outputLinks st), st).

(** [strings.Compare]: byte-wise lexicographic comparison. *)
Definition strings_Compare (a b : string) : Z :=
  match String.compare a b with
  | Lt => -1
  | Eq => 0
  | Gt => 1
  end.

(** [api.Unixfs()] *)
Record CoreAPI := {
  (** [Ls(lsCtx, pth, results, options.Unixfs.ResolveChildren(b))]: the
      entries sent on [results] until it is closed, and the returned error. *)
  Unixfs_Ls : Path -> bool -> list DirEntry.t * option Err
}.

(** [cidenc.Encoder] *)
Record Encoder := {
  Encode : Cid -> string
}.

(** [cmds.Environment] and the request body, as far as [Run] asks them. *)
Record Environment := {
  GetApi : Err + CoreAPI;           (* [cmdenv.GetApi(env, req)] *)
  ParseBodyArgs : option Err;       (* [req.ParseBodyArgs()]; [Arguments] are
                                       the arguments after it *)
  GetCidEncoder : Err + Encoder     (* [cmdenv.GetCidEncoder(req)] *)
}.

(** The pair of closures [processDir()] returns. *)
Record dirFuncs := {
  processLink : string -> LsLink.t -> M unit;
  dirDone : nat -> M unit
}.

(** What [Run] uses from other packages, and the emitter it is given. *)
Class Imports := {
  (** [cmdutils.PathOrCidPath] *)
  PathOrCidPath : string -> Err + Path;
  (** The response emitter [res]: the error of [res.Emit(v)] ([None] for
      [nil]) after the values in the first argument were handed to it. *)
  sink : list LsOutput.t -> LsOutput.t -> option Err;
  (** [slices.SortFunc], as a function from the slice before to the slice
      after. *)
  SortFunc : (LsLink.t -> LsLink.t -> Z) -> list LsLink.t -> list LsLink.t;
  (** The constants [iface.TFile], [iface.TDirectory], [iface.TSymlink] of
      [iface.FileType]. *)
  iface_TFile : Z;
  iface_TDirectory : Z;
  iface_TSymlink : Z
}.

Section Driver.

Context {imports : Imports}.

Local Open Scope run_scope.

(** [res.Emit(v)] *)
Definition Emit (v : LsOutput.t) : M unit :=
  fun st =>
    let st' := {| emitted := emitted st ++ [v]; lsCalls := lsCalls st;
                  output := output st; outputLinks := outputLinks st |} in
    match sink (emitted st) v with
    | Some e => (Error e, st')
    | None => (Ok tt, st')
    end.

(** [cmds.EmitOnce(res, v)]: the single value of the response. *)
Definition EmitOnce (v : LsOutput.t) : M unit := Emit v.

(** [go func() { lsErr <- api.Unixfs().Ls(lsCtx, pth, results, ...) }()]
    together with what the loop will receive from [results] and [lsErr]. *)
Definition goLs (api : CoreAPI) (pth : Path) (resolveChildren : bool)
    : M (list DirEntry.t * option Err) :=
  fun st =>
    (Ok (Unixfs_Ls api pth resolveChildren),
     {| emitted := emitted st; lsCalls := lsCalls st ++ [(pth, resolveChildren)];
        output := output st; outputLinks := outputLinks st |}).

(** The first closure [processDir()] returns, as first assigned (the
    streaming mode). *)
Definition stream_processLink (path : string) (link : LsLink.t) : M unit :=
  let output := [ {| LsObject.Hash := path; LsObject.Links := [link] |} ] in
  Emit {| LsOutput.Objects := output |}.

(** The second: [func(i int) {}]. *)
Definition stream_dirDone (i : nat) : M unit := ret tt.

(** [processDir] as first assigned. *)
Definition processDir_stream : M dirFuncs :=
  ret {| processLink := stream_processLink; dirDone := stream_dirDone |}.

(** The first closure [processDir()] returns when reassigned under
    [if !stream]. *)
Definition batch_processLink (path : string) (link : LsLink.t) : M unit :=
  (* for each link *)
  let* outputLinks := getOutputLinks in
  setOutputLinks (outputLinks ++ [link]).

(** The second. *)
Definition batch_dirDone (paths : list string) (i : nat) : M unit :=
  (* after each dir *)
  let* outputLinks := getOutputLinks in
  setOutputLinks
    (SortFunc (fun a b => strings_Compare (LsLink.Name a) (LsLink.Name b))
       outputLinks) ;;;
  let* outputLinks := getOutputLinks in
  let* p := index paths i in
  let* output := getOutput in
  if (i <? length output)%nat
  then setOutput (<[i := {| LsObject.Hash := p; LsObject.Links := outputLinks |}]> output)
  else fun st => (Panic, st).

(** [processDir] as reassigned under [if !stream]. *)
Definition processDir_batch (paths : list string) : M dirFuncs :=
  (* for each dir *)
  setOutputLinks [] ;;;
  ret {| processLink := batch_processLink; dirDone := batch_dirDone paths |}.

(** [done] as reassigned under [if !stream]. *)
Definition done_batch : M unit :=
  let* output := getOutput in
  EmitOnce {| LsOutput.Objects := output |}.

(** The [switch link.Type] of the loop over [results]; [ftype] starts as
    the zero value of [unixfs_pb.Data_DataType]. *)
Definition ftypeOf (t : Z) : Z :=
  if t =? iface_TFile then unixfs.TFile
  else if t =? iface_TDirectory then unixfs.TDirectory
  else if t =? iface_TSymlink then unixfs.TSymlink
  else 0.

Definition lsLinkOf (enc : Encoder) (link : DirEntry.t) : LsLink.t :=
  {| LsLink.Name := DirEntry.Name link;
     LsLink.Hash := Encode enc (DirEntry.Cid_ link);
     LsLink.Size := DirEntry.Size link;
     LsLink.Type_ := ftypeOf (DirEntry.Type_ link);
     LsLink.Target := DirEntry.Target link;
     LsLink.Mode := DirEntry.Mode link;
     LsLink.ModTime := DirEntry.ModTime link |}.

(** [for link := range results { ... }] *)
Fixpoint forLinks (enc : Encoder) (processLink : string -> LsLink.t -> M unit)
    (paths : list string) (i : nat) (results : list DirEntry.t) : M unit :=
  match results with
  | [] => ret tt
  | link :: results' =>
      let lsLink := lsLinkOf enc link in
      let* p := index paths i in
      processLink p lsLink ;;;
      forLinks enc processLink paths i results'
  end.

(** The body of [for i, fpath := range paths]. *)
Definition forPath (api : CoreAPI) (enc : Encoder) (resolveType resolveSize : bool)
    (processDir : M dirFuncs) (paths : list string) (i : nat) (fpath : string)
    : M unit :=
  let* pth := try (PathOrCidPath fpath) in
  let* feed := goLs api pth (resolveSize || resolveType) in
  let* fs := processDir in
  forLinks enc (processLink fs) paths i (fst feed) ;;;
  check (snd feed) ;;;
  dirDone fs i.

(** [for i, fpath := range paths], from index [i] with [rest] left. *)
Fixpoint forPaths (api : CoreAPI) (enc : Encoder) (resolveType resolveSize : bool)
    (processDir : M dirFuncs) (paths : list string) (i : nat) (rest : list string)
    : M unit :=
  match rest with
  | [] => ret tt
  | fpath :: rest' =>
      forPath api enc resolveType resolveSize processDir paths i fpath ;;;
      forPaths api enc resolveType resolveSize processDir paths (S i) rest'
  end.

(** [LsCmd.Run] *)
Definition Run (req : Request) (env : Environment) : M unit :=
  let* api := try (GetApi env) in
  let resolveType := boolOption req lsResolveTypeOptionName in
  let resolveSize := boolOption req lsSizeOptionName in
  let stream := boolOption req lsStreamOptionName in
  check (ParseBodyArgs env) ;;;
  let paths := Arguments req in
  let* enc := try (GetCidEncoder env) in
  let* fs :=
    (if negb stream
     then
       setOutput (replicate (length (Arguments req)) LsObject.zero) ;;;
       ret (processDir_batch paths, done_batch)
     else ret (processDir_stream, ret tt)) in
  forPaths api enc resolveType resolveSize (fst fs) paths 0 paths ;;;
  snd fs.

End Driver.

(** ** Vocabulary of the properties *)

(** [cmp(a, b) < 0]: [a] sorts before [b]. *)
Definition less {A} (cmp : A -> A -> Z) (a b : A) : Prop := cmp a b < 0.

#[global] Instance less_dec {A} (cmp : A -> A -> Z) (a b : A) : Decision (less cmp a b) :=
  decide (cmp a b < 0).

(** The requirement of [slices.SortFunc] on [cmp]: a strict weak ordering. *)
Record StrictWeakOrdering {A} (cmp : A -> A -> Z) : Prop := {
  swo_asym : forall a b, less cmp a b -> ~ less cmp b a;
  swo_negtrans : forall a b c, ~ less cmp a b -> ~ less cmp b c -> ~ less cmp a c
}.

(** The comparison [Run] sorts with. *)
Definition byName (a b : LsLink.t) : Z :=
  strings_Compare (LsLink.Name a) (LsLink.Name b).

(** Ascending by name, byte-wise. *)
Definition nameLe (a b : LsLink.t) : Prop :=
  strings_Compare (LsLink.Name a) (LsLink.Name b) <= 0.

(** The documented behaviour of [slices.SortFunc]: on a strict weak
    ordering, the slice afterwards holds the same elements in ascending
    order (no element sorts before an earlier one); the order of equal
    elements is not specified. *)
Definition SortFunc_contract
    (sort : (LsLink.t -> LsLink.t -> Z) -> list LsLink.t -> list LsLink.t) : Prop :=
  forall cmp l,
    StrictWeakOrdering cmp ->
    sort cmp l ≡ₚ l /\ StronglySorted (fun a b => ~ less cmp b a) (sort cmp l).

(** The directory-like kinds in the words of the specification: Directory
    and the directory shard. *)
Definition spec_directoryLike (t : Z) : bool :=
  (t =? unixfs.TDirectory) || (t =? unixfs.THAMTShard).

(** The kinds the renderer's [switch] lists in its first case. *)
Definition slashKind (t : Z) : bool :=
  bool_decide (t ∈ [unixfs.TDirectory; unixfs.THAMTShard; unixfs.TMetadata]).

(** Two links that differ at most in [Mode] and [ModTime]. *)
Definition sameButModeTime (a b : LsLink.t) : Prop :=
  LsLink.Name a = LsLink.Name b /\ LsLink.Hash a = LsLink.Hash b /\
  LsLink.Size a = LsLink.Size b /\ LsLink.Type_ a = LsLink.Type_ b /\
  LsLink.Target a = LsLink.Target b.

(** Two outputs that differ at most in the [Mode] and [ModTime] of their
    links. *)
Definition sameOutputButModeTime (a b : LsOutput.t) : Prop :=
  Forall2 (fun x y => LsObject.Hash x = LsObject.Hash y /\
                      Forall2 sameButModeTime (LsObject.Links x) (LsObject.Links y))
    (LsOutput.Objects a) (LsOutput.Objects b).

Section Rows.

Context {printing : Printing}.

(** The row of a link printed with the [/] suffix: [-] in the size column. *)
Definition slashRow (size : bool) (link : LsLink.t) : string :=
  LsLink.Hash link
  +:+ (if size then lit "\t-" else "")
  +:+ lit "\t" +:+ EscNonPrint (LsLink.Name link) +:+ lit "/\n".

(** The row of a link printed without suffix: the size in decimal. *)
Definition plainRow (size : bool) (link : LsLink.t) : string :=
  LsLink.Hash link
  +:+ (if size then lit "\t" +:+ decimal (LsLink.Size link) else "")
  +:+ lit "\t" +:+ EscNonPrint (LsLink.Name link) +:+ lit "\n".

(** The row of one link. *)
Definition row (size : bool) (link : LsLink.t) : string :=
  if slashKind (LsLink.Type_ link) then slashRow size link else plainRow size link.

Definition rows (size : bool) (links : list LsLink.t) : string :=
  foldr (fun link s => row size link +:+ s) "" links.

(** The header row. *)
Definition headerRow (headers size : bool) : string :=
  if headers
  then if size then lit "Hash\tSize\tName\n" else lit "Hash\tName\n"
  else "".

(** What precedes the rows of a group whose key differs from the last one:
    the label with its separating blank line, then the header row. *)
Definition groupHead (headers size multipleFolders : bool) (last key : string) : string :=
  (if multipleFolders
   then (if String.eqb last "" then "" else lit "\n") +:+ key +:+ lit ":\n"
   else "")
  +:+ headerRow headers size.

(** What one object adds to the tabwriter, given [lastObjectHash]. *)
Definition objectCells (headers size multipleFolders ignoreBreaks : bool)
    (last : string) (object : LsObject.t) : string :=
  (if negb ignoreBreaks && negb (String.eqb (LsObject.Hash object) last)
   then groupHead headers size multipleFolders last (LsObject.Hash object)
   else "")
  +:+ rows size (LsObject.Links object).

(** [lastObjectHash] after one object. *)
Definition nextKey (ignoreBreaks : bool) (last : string) (object : LsObject.t) : string :=
  if ignoreBreaks then last else LsObject.Hash object.

(** What a sequence of objects adds to the tabwriter, and the final
    [lastObjectHash]. *)
Fixpoint unitCells (headers size multipleFolders ignoreBreaks : bool)
    (last : string) (objects : list LsObject.t) : string * string :=
  match objects with
  | [] => ("", last)
  | object :: objects' =>
      let r := unitCells headers size multipleFolders ignoreBreaks
                 (nextKey ignoreBreaks last object) objects' in
      (objectCells headers size multipleFolders ignoreBreaks last object +:+ fst r,
       snd r)
  end.

End Rows.

(** Texts written one after the other. *)
Definition joinText (l : list string) : string := foldr String.append "" l.

(** The objects of several values, as one value. *)
Definition joined (vs : list LsOutput.t) : LsOutput.t :=
  {| LsOutput.Objects := concat (LsOutput.Objects <$> vs) |}.

Section Traversals.

Context {imports : Imports}.

(** What the loop observes for one requested path: the entries received
    and the error that ends the iteration, if any ([PathOrCidPath]'s, or
    the one received from [lsErr]). *)
Definition traversal (api : CoreAPI) (resolveChildren : bool) (fpath : string)
    : list DirEntry.t * option Err :=
  match PathOrCidPath fpath with
  | inl e => ([], Some e)
  | inr pth => Unixfs_Ls api pth resolveChildren
  end.

(** The call of [Ls] the iteration for [fpath] makes, if it makes one. *)
Definition callsOf (resolveChildren : bool) (fpath : string) : list (Path * bool) :=
  match PathOrCidPath fpath with
  | inl _ => []
  | inr pth => [(pth, resolveChildren)]
  end.

(** One value per entry, each a single object holding a single link. *)
Definition streamUnits (enc : Encoder) (fpath : string) (es : list DirEntry.t)
    : list LsOutput.t :=
  map (fun e => {| LsOutput.Objects :=
                     [ {| LsObject.Hash := fpath;
                          LsObject.Links := [lsLinkOf enc e] |} ] |}) es.

(** The object [dirDone] stores for a requested path: its links, sorted. *)
Definition sortedGroup (api : CoreAPI) (enc : Encoder) (rc : bool) (fpath : string)
    : LsObject.t :=
  {| LsObject.Hash := fpath;
     LsObject.Links :=
       SortFunc byName (map (lsLinkOf enc) (fst (traversal api rc fpath))) |}.

(** The requested paths whose iteration starts: all up to and including the
    first whose traversal ends with an error. *)
Fixpoint attempted (api : CoreAPI) (rc : bool) (ps : list string) : list string :=
  match ps with
  | [] => []
  | p :: ps' =>
      p :: (if snd (traversal api rc p) is None then attempted api rc ps' else [])
  end.

(** The first error among the traversals of [ps]. *)
Fixpoint firstError (api : CoreAPI) (rc : bool) (ps : list string) : option Err :=
  match ps with
  | [] => None
  | p :: ps' =>
      match snd (traversal api rc p) with
      | Some e => Some e
      | None => firstError api rc ps'
      end
  end.

(** The result of a run that ends with [err]. *)
Definition ended (err : option Err) : result unit :=
  match err with
  | Some e => Error e
  | None => Ok tt
  end.

End Traversals.

(** A step that makes no call of [Ls]. *)
Definition keepsCalls {A} (m : M A) : Prop :=
  forall st, lsCalls (snd (m st)) = lsCalls st.

(** A [processDir] that makes no call of [Ls], neither itself nor through
    the closures it returns. *)
Definition quietDir (processDir : M dirFuncs) : Prop :=
  keepsCalls processDir
  /\ forall st fs st',
       processDir st = (Ok fs, st') ->
       (forall p l, keepsCalls (processLink fs p l))
       /\ (forall i, keepsCalls (dirDone fs i)).

(** ** Vocabulary of the further properties *)

(** The links of all objects of the values, in order. *)
Definition allLinks (vs : list LsOutput.t) : list LsLink.t :=
  flat_map (fun v => flat_map LsObject.Links (LsOutput.Objects v)) vs.

(** A text made of complete lines: empty, or ending in a newline. *)
Definition completeLines (s : string) : Prop :=
  s = "" \/ exists t, s = t +:+ lit "\n".

(** No two neighbours in a sequence of objects have the same [Hash]. *)
Definition keysChange (os : list LsObject.t) : Prop :=
  forall i a b,
    os !! i = Some a -> os !! S i = Some b -> LsObject.Hash a <> LsObject.Hash b.

Section Emitter.

Context {imports : Imports}.

(** The emitter accepted every value of the log, each after the ones
    before it. *)
Definition accepted (log : list LsOutput.t) : Prop :=
  forall i v, log !! i = Some v -> sink (take i log) v = None.

(** How a run stands with the emitter: either every value handed over was
    accepted, or the last one was rejected with the error the run returns
    and those before it were accepted; and the run did not panic. *)
Definition emitterPost (r : result unit) (log : list LsOutput.t) : Prop :=
  r <> Panic
  /\ (accepted log
      \/ exists l v e,
           log = l ++ [v] /\ accepted l /\ sink l v = Some e /\ r = Error e).

End Emitter.

(** The first error of the three steps that precede the loop of [Run], in
    the order [Run] takes them. *)
Definition setupError (env : Environment) : option Err :=
  match GetApi env with
  | inl e => Some e
  | inr _ =>
      match ParseBodyArgs env with
      | Some e => Some e
      | None =>
          match GetCidEncoder env with
          | inl e => Some e
          | inr _ => None
          end
      end
  end.

(** The request with its [stream] option set to [b]. *)
Definition withStream (b : bool) (req : Request) : Request :=
  {| Arguments := Arguments req;
     Options := <[lsStreamOptionName := b]> (Options req) |}.

(** ** A concrete setting, for examples *)

Module Demo.

Definition parse (fpath : string) : Err + Path :=
  if String.eqb fpath "" then inl "invalid path" else inr ("/ipfs" +:+ fpath).

Definition sort (cmp : LsLink.t -> LsLink.t -> Z) (l : list LsLink.t) : list LsLink.t :=
  merge_sort (fun a b => ~ less cmp b a) l.

Definition imports : Imports :=
  {| PathOrCidPath := parse;
     sink := fun _ _ => None;
     SortFunc := sort;
     iface_TFile := 1;
     iface_TDirectory := 2;
     iface_TSymlink := 3 |}.

Definition printing : Printing :=
  {| EscNonPrint := fun s => s;
     tabwriter_Flush := fun _ _ _ _ _ tw => tw |}.

Definition ls (pth : Path) (resolveChildren : bool) : list DirEntry.t * option Err :=
  if String.eqb pth "/ipfs/a"
  then ([DirEntry.mk "z" "cz" 1 1 "" 420%N 5; DirEntry.mk "b" "cb" 3 2 "" 493%N 6], None)
  else if String.eqb pth "/ipfs/b"
  then ([DirEntry.mk "m" "cm" 2 2 "" 493%N 7], None)
  else if String.eqb pth "/ipfs/e"
  then ([], None)
  else ([DirEntry.mk "q" "cq" 4 9 "" 0%N 0], Some "no link named x").

Definition api : CoreAPI := {| Unixfs_Ls := ls |}.

Definition enc : Encoder := {| Encode := fun c => "Qm" +:+ c |}.

Definition env : Environment :=
  {| GetApi := inr api; ParseBodyArgs := None; GetCidEncoder := inr enc |}.

Definition request (paths : list string) (headers stream : bool) : Request :=
  {| Arguments := paths;
     Options := {[ lsHeadersOptionNameTime := headers;
                   lsResolveTypeOptionName := true;
                   lsSizeOptionName := true;
                   lsStreamOptionName := stream ]} |}.

Definition fileZ : LsLink.t := LsLink.mk "z" "Qmcz" 1 unixfs.TFile "" 420%N 5.
Definition fileZ' : LsLink.t := LsLink.mk "z" "Qmcz" 1 unixfs.TFile "" 256%N 99.
Definition metaM : LsLink.t := LsLink.mk "meta" "Qm" 7 unixfs.TMetadata "" 0%N 0.

End Demo.

(** Further settings: an emitter that accepts one value and then fails, an
    environment without encoder, and a symbolic link. *)
Module DemoMore.

Definition imports : Imports :=
  {| PathOrCidPath := Demo.parse;
     sink := fun h _ => if h is [] then None else Some "broken pipe";
     SortFunc := Demo.sort;
     iface_TFile := 1;
     iface_TDirectory := 2;
     iface_TSymlink := 3 |}.

Definition noEncoder : Environment :=
  {| GetApi := inr Demo.api; ParseBodyArgs := None;
     GetCidEncoder := inl "invalid cid base" |}.

Definition linkZ : LsLink.t := LsLink.mk "z" "Qmcz" 1 unixfs.TSymlink "/ipfs/t" 511%N 8.

Definition dirM : LsLink.t := LsLink.mk "m" "Qmcm" 2 unixfs.TDirectory "" 493%N 7.

(** An API that looks at the children, to give their sizes and types, only
    when asked to resolve them. *)
Definition lazyLs (pth : Path) (resolveChildren : bool) : list DirEntry.t * option Err :=
  if resolveChildren then Demo.ls pth true
  else (map (fun e => DirEntry.mk (DirEntry.Name e) (DirEntry.Cid_ e) 0 0
                        (DirEntry.Target e) (DirEntry.Mode e) (DirEntry.ModTime e))
          (fst (Demo.ls pth false)),
        snd (Demo.ls pth false)).

Definition lazyApi : CoreAPI := {| Unixfs_Ls := lazyLs |}.

Definition lazyEnv : Environment :=
  {| GetApi := inr lazyApi; ParseBodyArgs := None; GetCidEncoder := inr Demo.enc |}.

(** A request that sets [size] and clears [resolve-type]. *)
Definition sizeOnly (paths : list string) (stream : bool) : Request :=
  {| Arguments := paths;
     Options := {[ lsHeadersOptionNameTime := false;
                   lsResolveTypeOptionName := false;
                   lsSizeOptionName := true;
                   lsStreamOptionName := stream ]} |}.

End DemoMore.

(** * Properties *)

(** ** Strings *)

Lemma append_cons (x : ascii) (a b : string) : String x a +:+ b = String x (a +:+ b).
Proof. reflexivity. Qed.

Lemma append_nil_l (a : string) : "" +:+ a = a.
Proof. reflexivity. Qed.

Lemma append_assoc (a b c : string) : (a +:+ b) +:+ c = a +:+ (b +:+ c).
Proof.
  induction a as [|x a IH]; [reflexivity|].
  rewrite !append_cons. now rewrite IH.
Qed.

Lemma append_nil_r (a : string) : a +:+ "" = a.
Proof.
  induction a as [|x a IH]; [reflexivity|].
  rewrite append_cons. now rewrite IH.
Qed.

(** ** The renderer *)

Lemma slashKind_switch t :
  slashKind t
  = (t =? unixfs.TDirectory) || (t =? unixfs.THAMTShard) || (t =? unixfs.TMetadata).
Proof.
  unfold slashKind.
  destruct (Z.eqb_spec t unixfs.TDirectory) as [E1|N1].
  { subst t. reflexivity. }
  destruct (Z.eqb_spec t unixfs.THAMTShard) as [E2|N2].
  { subst t. reflexivity. }
  destruct (Z.eqb_spec t unixfs.TMetadata) as [E3|N3].
  { subst t. reflexivity. }
  apply bool_decide_eq_false. rewrite !elem_of_cons, elem_of_nil. tauto.
Qed.

Section RendererFacts.

Context {printing : Printing}.

Lemma writeLink_row size tw link :
  writeLink size tw link = Some (tw +:+ row size link).
Proof.
  unfold writeLink, row. rewrite slashKind_switch.
  destruct (_ || _ || _), size; vm_compute; reflexivity.
Qed.

Lemma writeLinks_rows size links : forall tw,
  writeLinks size tw links = Some (tw +:+ rows size links).
Proof.
  induction links as [|link links IH]; intros tw; simpl.
  - now rewrite append_nil_r.
  - rewrite writeLink_row. simpl. rewrite IH. now rewrite append_assoc.
Qed.

Lemma Fprintf_label tw key :
  Fprintf tw (lit "%s:\n") [AString key] = Some (tw +:+ key +:+ lit ":\n").
Proof. vm_compute. reflexivity. Qed.

Lemma writeObject_cells headers size multipleFolders ignoreBreaks tw last object :
  writeObject headers size multipleFolders ignoreBreaks tw last object
  = Some (tw +:+ objectCells headers size multipleFolders ignoreBreaks last object,
          nextKey ignoreBreaks last object).
Proof.
  unfold writeObject, objectCells, nextKey, groupHead, headerRow.
  destruct ignoreBreaks.
  { cbn. rewrite writeLinks_rows. reflexivity. }
  destruct (String.eqb_spec (LsObject.Hash object) last) as [E|NE].
  { cbn. rewrite writeLinks_rows. cbn. now rewrite E. }
  destruct multipleFolders.
  - cbn [negb andb]. rewrite Fprintf_label.
    destruct headers, (String.eqb last ""), size; cbn; rewrite writeLinks_rows; cbn.
    all: unfold Fprintln; cbn.
    all: repeat rewrite ?append_assoc, ?append_nil_r, ?append_nil_l, ?append_cons.
    all: reflexivity.
  - destruct headers, size; cbn; rewrite writeLinks_rows; cbn.
    all: unfold Fprintln; cbn.
    all: repeat rewrite ?append_assoc, ?append_nil_r, ?append_nil_l, ?append_cons.
    all: reflexivity.
Qed.

Lemma writeObjects_cells headers size multipleFolders ignoreBreaks objects :
  forall tw last,
    writeObjects headers size multipleFolders ignoreBreaks tw last objects
    = Some (tw +:+ fst (unitCells headers size multipleFolders ignoreBreaks last objects),
            snd (unitCells headers size multipleFolders ignoreBreaks last objects)).
Proof.
  induction objects as [|object objects IH]; intros tw last; simpl.
  - now rewrite append_nil_r.
  - rewrite writeObject_cells. simpl. rewrite IH. now rewrite append_assoc.
Qed.

End RendererFacts.

Section RendererProperties.

Context {printing : Printing}.

Lemma tabularCells_cells req out prior ignoreBreaks :
  tabularCells req out prior ignoreBreaks
  = Some (unitCells (boolOption req lsHeadersOptionNameTime)
            (boolOption req lsSizeOptionName)
            (1 <? length (Arguments req))%nat ignoreBreaks prior
            (LsOutput.Objects out)).
Proof.
  unfold tabularCells. rewrite writeObjects_cells, append_nil_l.
  now destruct (unitCells _ _ _ _ _ _).
Qed.

Lemma unitCells_app headers size multipleFolders ignoreBreaks l1 l2 : forall prior,
  unitCells headers size multipleFolders ignoreBreaks prior (l1 ++ l2)
  = (fst (unitCells headers size multipleFolders ignoreBreaks prior l1)
     +:+ fst (unitCells headers size multipleFolders ignoreBreaks
                (snd (unitCells headers size multipleFolders ignoreBreaks prior l1)) l2),
     snd (unitCells headers size multipleFolders ignoreBreaks
            (snd (unitCells headers size multipleFolders ignoreBreaks prior l1)) l2)).
Proof.
  induction l1 as [|object l1 IH]; intros prior; cbn [unitCells app fst snd].
  - rewrite append_nil_l. now destruct (unitCells _ _ _ _ _ _).
  - rewrite IH. cbn [fst snd]. now rewrite append_assoc.
Qed.

Lemma unitCells_key headers size multipleFolders ignoreBreaks objects : forall prior,
  snd (unitCells headers size multipleFolders ignoreBreaks prior objects)
  = if ignoreBreaks then prior
    else default prior (LsObject.Hash <$> last objects).
Proof.
  induction objects as [|object objects IH]; intros prior; cbn [unitCells snd].
  - now destruct ignoreBreaks.
  - rewrite IH. unfold nextKey. destruct ignoreBreaks; [reflexivity|].
    destruct objects as [|object' objects]; [reflexivity|].
    rewrite last_cons_cons.
    destruct (last (object' :: objects)) eqn:E; [reflexivity|].
    apply last_None in E. discriminate E.
Qed.

Lemma threadCells_cells req ignoreBreaks vs : forall prior,
  exists tws,
    threadCells req ignoreBreaks vs prior
    = Some (tws, snd (unitCells (boolOption req lsHeadersOptionNameTime)
                        (boolOption req lsSizeOptionName)
                        (1 <? length (Arguments req))%nat ignoreBreaks prior
                        (LsOutput.Objects (joined vs))))
    /\ joinText tws
       = fst (unitCells (boolOption req lsHeadersOptionNameTime)
                (boolOption req lsSizeOptionName)
                (1 <? length (Arguments req))%nat ignoreBreaks prior
                (LsOutput.Objects (joined vs))).
Proof.
  induction vs as [|out vs IH]; intros prior; cbn [threadCells].
  - exists []. split; reflexivity.
  - rewrite tabularCells_cells.
    destruct (unitCells _ _ _ _ prior (LsOutput.Objects out)) as [tw k] eqn:E.
    cbn [mbind option_bind]. destruct (IH k) as (tws & Hrun & Hjoin).
    rewrite Hrun. cbn [mbind option_bind]. exists (tw :: tws).
    unfold joined. cbn [fmap list_fmap concat LsOutput.Objects].
    rewrite unitCells_app, E. cbn [fst snd]. split; [reflexivity|].
    cbn [joinText foldr]. fold (joinText tws). now rewrite Hjoin.
Qed.

Lemma PostRun_loop_thread req vs final : forall stdout prior,
  PostRun_loop req vs final stdout prior
  = (fun r => (stdout +:+ joinText
                 (tabwriter_Flush (if boolOption req lsStreamOptionName
                                   then 10%nat else 1%nat) 2 1 " "%char 0 <$> fst r),
               final))
    <$> threadCells req false vs prior.
Proof.
  induction vs as [|out vs IH]; intros stdout prior; cbn [PostRun_loop threadCells].
  - cbn. now rewrite append_nil_r.
  - unfold tabularOutput.
    destruct (tabularCells req out prior false) as [[tw k]|]; [|reflexivity].
    cbn [mbind option_bind]. rewrite IH.
    destruct (threadCells req false vs k) as [[tws k']|]; [|reflexivity].
    cbn. now rewrite append_assoc.
Qed.

Lemma row_sameButModeTime size a b :
  sameButModeTime a b -> row size a = row size b.
Proof.
  intros (HN & HH & HS & HT & _).
  unfold row, slashRow, plainRow. now rewrite HN, HH, HS, HT.
Qed.

Lemma rows_sameButModeTime size l1 l2 :
  Forall2 sameButModeTime l1 l2 -> rows size l1 = rows size l2.
Proof.
  induction 1 as [|a b l1 l2 Hab _ IH]; [reflexivity|].
  cbn [rows foldr]. fold (rows size l1). fold (rows size l2).
  now rewrite (row_sameButModeTime size a b Hab), IH.
Qed.

Lemma unitCells_sameButModeTime headers size multipleFolders ignoreBreaks l1 l2 :
  Forall2 (fun x y => LsObject.Hash x = LsObject.Hash y /\
                      Forall2 sameButModeTime (LsObject.Links x) (LsObject.Links y))
    l1 l2 ->
  forall prior,
    unitCells headers size multipleFolders ignoreBreaks prior l1
    = unitCells headers size multipleFolders ignoreBreaks prior l2.
Proof.
  induction 1 as [|x y l1 l2 [HH HL] _ IH]; intros prior; [reflexivity|].
  cbn [unitCells]. unfold objectCells, nextKey.
  now rewrite HH, (rows_sameButModeTime size _ _ HL), IH.
Qed.

(** C4 (amended).  Each link is printed as one row on the tabwriter: its
    hash, the size cell when the [size] option is set, and its escaped name.
    For a link whose type is [TDirectory], [THAMTShard] or [TMetadata] the
    size cell holds [-] and the name is followed by [/]; for a link of any
    other type the size cell holds the size in decimal and nothing follows
    the name. *)
Theorem row_by_kind (size : bool) (tw : string) (link : LsLink.t) :
  let slash := bool_decide (LsLink.Type_ link
                 ∈ [unixfs.TDirectory; unixfs.THAMTShard; unixfs.TMetadata]) in
  writeLink size tw link
  = Some (tw +:+ LsLink.Hash link
          +:+ (if size
               then lit "\t" +:+ (if slash then "-" else decimal (LsLink.Size link))
               else "")
          +:+ lit "\t" +:+ EscNonPrint (LsLink.Name link)
          +:+ (if slash then "/" else "") +:+ lit "\n").
Proof.
  intros slash. rewrite writeLink_row. f_equal. f_equal.
  unfold row, slashRow, plainRow. fold (slashKind (LsLink.Type_ link)).
  subst slash. fold (slashKind (LsLink.Type_ link)).
  destruct (slashKind (LsLink.Type_ link)), size; cbn;
    repeat rewrite ?append_assoc, ?append_nil_r, ?append_nil_l, ?append_cons;
    reflexivity.
Qed.

(** C5 (amended).  With [ignoreBreaks] false, an object whose [Hash] differs
    from [lastObjectHash] is preceded, when more than one path was
    requested, by its label line [<Hash>:], itself preceded by an empty
    line unless [lastObjectHash] is empty (as before the very first group);
    when headers are requested the header row ([Hash Name], or
    [Hash Size Name] with the [size] option) follows at once; then come the
    rows.  An object whose [Hash] equals [lastObjectHash] adds its rows
    only.  With [ignoreBreaks] true no label, empty line or header is
    printed for any object. *)
Theorem group_label_and_header (req : Request) (tw prior : string) (object : LsObject.t) :
  let headers := boolOption req lsHeadersOptionNameTime in
  let size := boolOption req lsSizeOptionName in
  let multipleFolders := (1 <? length (Arguments req))%nat in
  let key := LsObject.Hash object in
  let label :=
    if multipleFolders
    then (if String.eqb prior "" then "" else lit "\n") +:+ key +:+ lit ":\n"
    else "" in
  let header :=
    if headers
    then (if size then lit "Hash\tSize\tName\n" else lit "Hash\tName\n")
    else "" in
  writeObject headers size multipleFolders false tw prior object
  = Some (tw +:+ (if String.eqb key prior then "" else label +:+ header)
             +:+ rows size (LsObject.Links object),
          key)
  /\ writeObject headers size multipleFolders true tw prior object
     = Some (tw +:+ rows size (LsObject.Links object), prior).
Proof.
  intros headers size multipleFolders key label header.
  rewrite !writeObject_cells. unfold objectCells, nextKey, groupHead, headerRow.
  cbn [negb andb]. rewrite append_nil_l. split; [|reflexivity].
  subst key label header. now destruct (String.eqb _ prior).
Qed.

(** C9 (amended).  [tabularOutput] returns its [lastObjectHash] argument
    unchanged when [ignoreBreaks] is true or the value has no object, and
    otherwise the [Hash] of the last object of the value.  A caller that
    calls it once per value and passes the returned key on writes to the
    tabwriters, taken one after the other, exactly the bytes that one call
    on the joined values writes, and ends with the same key; [PostRun] is
    such a caller, and what it prints is the flushed output of these
    tabwriters. *)
Theorem returned_key_threads (req : Request) (out : LsOutput.t)
    (prior : string) (ignoreBreaks : bool) :
  snd <$> tabularOutput req out prior ignoreBreaks
  = Some (if ignoreBreaks then prior
          else default prior (LsObject.Hash <$> last (LsOutput.Objects out)))
  /\ (forall vs : list LsOutput.t,
        (fun r => (joinText (fst r), snd r)) <$> threadCells req ignoreBreaks vs prior
        = tabularCells req (joined vs) prior ignoreBreaks)
  /\ (forall (vs : list LsOutput.t) (final : option Err),
        PostRun req vs final
        = (fun r => (joinText
                       (tabwriter_Flush (if boolOption req lsStreamOptionName
                                         then 10%nat else 1%nat) 2 1 " "%char 0 <$> fst r),
                     final))
          <$> threadCells req false vs "").
Proof.
  split; [|split].
  - unfold tabularOutput. rewrite tabularCells_cells.
    destruct (unitCells _ _ _ _ _ _) as [tw k] eqn:E. cbn.
    f_equal. change k with (snd (tw, k)). rewrite <- E. apply unitCells_key.
  - intros vs. destruct (threadCells_cells req ignoreBreaks vs prior) as (tws & -> & Hjoin).
    rewrite tabularCells_cells. cbn [fmap option_fmap option_map fst snd].
    rewrite Hjoin. now destruct (unitCells _ _ _ _ _ _).
  - intros vs final. unfold PostRun. rewrite PostRun_loop_thread.
    destruct (threadCells req false vs "") as [[tws k]|]; reflexivity.
Qed.

End RendererProperties.

(** ** Ordering by name *)

Lemma strings_Compare_lt a b : strings_Compare a b < 0 <-> String.compare a b = Lt.
Proof. unfold strings_Compare. destruct (String.compare a b); split; (lia || congruence). Qed.

Lemma strings_Compare_le a b : strings_Compare a b <= 0 <-> String.compare a b <> Gt.
Proof. unfold strings_Compare. destruct (String.compare a b); split; (lia || congruence). Qed.

Lemma compare_not_lt a b : String.compare a b <> Lt <-> String.le b a.
Proof.
  unfold String.le, String.leb. rewrite (String.compare_antisym b a).
  destruct (String.compare a b); cbn; split; (congruence || tauto || done).
Qed.

Lemma not_less_byName a b :
  ~ less byName a b <-> String.le (LsLink.Name b) (LsLink.Name a).
Proof. unfold less, byName. rewrite strings_Compare_lt. apply compare_not_lt. Qed.

Lemma not_less_nameLe a b : ~ less byName b a <-> nameLe a b.
Proof.
  unfold less, nameLe, byName. rewrite strings_Compare_lt, strings_Compare_le.
  rewrite (String.compare_antisym (LsLink.Name a) (LsLink.Name b)).
  destruct (String.compare (LsLink.Name b) (LsLink.Name a)); cbn; split; congruence.
Qed.

Lemma byName_strict_weak : StrictWeakOrdering byName.
Proof.
  split.
  - intros a b Hab Hba. unfold less, byName in *.
    rewrite strings_Compare_lt in *.
    rewrite String.compare_antisym, Hba in Hab. discriminate Hab.
  - intros a b c Hab Hbc. rewrite not_less_byName in *.
    etrans; eassumption.
Qed.

Lemma StronglySorted_weaken {A} (R S : A -> A -> Prop) l :
  (forall a b, R a b -> S a b) -> StronglySorted R l -> StronglySorted S l.
Proof.
  intros HRS. induction 1 as [|a l _ IH Hall]; constructor; [exact IH|].
  eapply Forall_impl; [exact Hall|]. intros b. apply HRS.
Qed.

Lemma Demo_sort_contract : SortFunc_contract Demo.sort.
Proof.
  intros cmp l [Hasym Hneg]. unfold Demo.sort. split.
  - apply merge_sort_Permutation.
  - apply StronglySorted_merge_sort.
    + intros a b c Hab Hbc. eapply Hneg; eassumption.
    + intros a b. destruct (decide (less cmp b a)) as [Hba|Hba]; [|now left].
      right. now apply Hasym.
Qed.

(** ** The driver *)

Section DriverFacts.
Context {imports : Imports}.

Lemma forLinks_stream enc paths i p results :
  paths !! i = Some p ->
  (forall h u, sink h u = None) ->
  forall st,
    forLinks enc stream_processLink paths i results st
    = (Ok tt, {| emitted := emitted st ++ streamUnits enc p results;
                 lsCalls := lsCalls st; output := output st;
                 outputLinks := outputLinks st |}).
Proof.
  intros Hp Hsink. induction results as [|link results IH]; intros st.
  - cbn. rewrite app_nil_r. now destruct st.
  - cbn [forLinks]. unfold bind at 1. unfold index. rewrite Hp.
    unfold bind at 1. unfold stream_processLink, Emit. rewrite Hsink.
    rewrite IH. cbn. now rewrite <- app_assoc.
Qed.

Lemma forLinks_batch enc paths i p results :
  paths !! i = Some p ->
  forall st,
    forLinks enc batch_processLink paths i results st
    = (Ok tt, {| emitted := emitted st; lsCalls := lsCalls st; output := output st;
                 outputLinks := outputLinks st ++ map (lsLinkOf enc) results |}).
Proof.
  intros Hp. induction results as [|link results IH]; intros st.
  - cbn. rewrite app_nil_r. now destruct st.
  - cbn [forLinks]. unfold bind at 1. unfold index. rewrite Hp.
    unfold bind at 1. unfold batch_processLink. cbn.
    rewrite IH. cbn. now rewrite <- app_assoc.
Qed.

Lemma forPath_stream api enc resolveType resolveSize paths i fpath st :
  paths !! i = Some fpath ->
  (forall h u, sink h u = None) ->
  forPath api enc resolveType resolveSize processDir_stream paths i fpath st
  = (ended (snd (traversal api (resolveSize || resolveType) fpath)),
     {| emitted := emitted st
                   ++ streamUnits enc fpath
                        (fst (traversal api (resolveSize || resolveType) fpath));
        lsCalls := lsCalls st ++ callsOf (resolveSize || resolveType) fpath;
        output := output st; outputLinks := outputLinks st |}).
Proof.
  intros Hp Hsink. unfold forPath, traversal, callsOf.
  unfold bind at 1. unfold try.
  destruct (PathOrCidPath fpath) as [e|pth].
  { cbn. rewrite !app_nil_r. now destruct st. }
  unfold bind at 1. unfold goLs at 1.
  unfold bind at 1. unfold processDir_stream, ret at 1.
  unfold bind at 1. cbn [processLink dirDone fst snd].
  rewrite (forLinks_stream enc paths i fpath _ Hp Hsink).
  destruct (Unixfs_Ls api pth (resolveSize || resolveType)) as [es [e|]]; reflexivity.
Qed.


Lemma forPath_batch api enc resolveType resolveSize paths i fpath st :
  paths !! i = Some fpath ->
  (i < length (output st))%nat ->
  exists st',
    forPath api enc resolveType resolveSize (processDir_batch paths) paths i fpath st
    = (ended (snd (traversal api (resolveSize || resolveType) fpath)), st')
    /\ emitted st' = emitted st
    /\ lsCalls st' = lsCalls st ++ callsOf (resolveSize || resolveType) fpath
    /\ output st'
       = if snd (traversal api (resolveSize || resolveType) fpath) is None
         then <[i := sortedGroup api enc (resolveSize || resolveType) fpath]> (output st)
         else output st.
Proof.
  intros Hp Hi. unfold forPath, sortedGroup, traversal, callsOf.
  unfold bind at 1. unfold try.
  destruct (PathOrCidPath fpath) as [e|pth].
  { eexists. split; [reflexivity|]. cbn. now rewrite app_nil_r. }
  unfold bind at 1. unfold goLs at 1.
  unfold bind at 1. unfold processDir_batch.
  unfold bind at 1. unfold setOutputLinks at 1, ret at 1.
  unfold bind at 1. cbn [processLink dirDone fst snd].
  rewrite (forLinks_batch enc paths i fpath _ Hp).
  cbn [emitted lsCalls output outputLinks app].
  destruct (Unixfs_Ls api pth (resolveSize || resolveType)) as [es [e|]].
  { eexists. split; [reflexivity|]. cbn. auto. }
  cbn [fst snd]. unfold bind at 1. unfold check.
  unfold batch_dirDone, bind, getOutputLinks, setOutputLinks, index, getOutput, setOutput.
  cbn [emitted lsCalls output outputLinks]. rewrite Hp.
  apply Nat.ltb_lt in Hi. cbn [emitted lsCalls output outputLinks]. rewrite Hi.
  eexists. split; [reflexivity|]. cbn. auto.
Qed.

Lemma attempted_all api rc ps :
  Forall (fun p => snd (traversal api rc p) = None) ps ->
  attempted api rc ps = ps /\ firstError api rc ps = None.
Proof.
  induction 1 as [|p ps Hp _ [IH1 IH2]]; [done|].
  cbn. rewrite Hp. now rewrite IH1, IH2.
Qed.

Lemma attempted_until api rc pre p post e :
  Forall (fun p => snd (traversal api rc p) = None) pre ->
  snd (traversal api rc p) = Some e ->
  attempted api rc (pre ++ p :: post) = pre ++ [p]
  /\ firstError api rc (pre ++ p :: post) = Some e.
Proof.
  intros Hpre Hp. induction Hpre as [|q pre Hq _ [IH1 IH2]].
  - cbn. now rewrite Hp.
  - cbn. rewrite Hq. now rewrite IH1, IH2.
Qed.

Lemma forPaths_stream api enc resolveType resolveSize paths :
  (forall h u, sink h u = None) ->
  forall rest done_ st,
    paths = done_ ++ rest ->
    forPaths api enc resolveType resolveSize processDir_stream paths (length done_) rest st
    = (ended (firstError api (resolveSize || resolveType) rest),
       {| emitted :=
            emitted st
            ++ flat_map (fun p => streamUnits enc p
                           (fst (traversal api (resolveSize || resolveType) p)))
                 (attempted api (resolveSize || resolveType) rest);
          lsCalls :=
            lsCalls st
            ++ flat_map (callsOf (resolveSize || resolveType))
                 (attempted api (resolveSize || resolveType) rest);
          output := output st; outputLinks := outputLinks st |}).
Proof.
  intros Hsink rest. induction rest as [|fpath rest IH]; intros done_ st Hpaths.
  - cbn. rewrite !app_nil_r. now destruct st.
  - cbn [forPaths attempted firstError]. unfold bind at 1.
    rewrite forPath_stream; [|subst paths; apply list_lookup_middle; reflexivity|exact Hsink].
    destruct (snd (traversal api (resolveSize || resolveType) fpath)) as [e|] eqn:E.
    { cbn. now rewrite !app_nil_r. }
    cbn [ended].
    replace (S (length done_)) with (length (done_ ++ [fpath]))
      by (rewrite length_app; cbn; lia).
    rewrite IH by (subst paths; now rewrite <- app_assoc).
    cbn. now rewrite <- !app_assoc.
Qed.

Lemma forPaths_batch api enc resolveType resolveSize paths :
  forall rest done_ st,
    paths = done_ ++ rest ->
    length (output st) = length paths ->
    exists st',
      forPaths api enc resolveType resolveSize (processDir_batch paths) paths
        (length done_) rest st
      = (ended (firstError api (resolveSize || resolveType) rest), st')
      /\ emitted st' = emitted st
      /\ lsCalls st'
         = lsCalls st
           ++ flat_map (callsOf (resolveSize || resolveType))
                (attempted api (resolveSize || resolveType) rest)
      /\ length (output st') = length paths
      /\ (firstError api (resolveSize || resolveType) rest = None ->
          output st'
          = take (length done_) (output st)
            ++ map (sortedGroup api enc (resolveSize || resolveType)) rest).
Proof.
  intros rest. induction rest as [|fpath rest IH]; intros done_ st Hpaths Hlen.
  - exists st. cbn. rewrite !app_nil_r. repeat split; try done.
    intros _. rewrite take_ge; [done|]. subst paths. rewrite app_nil_r in Hlen. lia.
  - assert (Hp : paths !! length done_ = Some fpath)
      by (subst paths; now apply list_lookup_middle).
    assert (Hi : (length done_ < length (output st))%nat).
    { rewrite Hlen. subst paths. rewrite length_app. cbn. lia. }
    destruct (forPath_batch api enc resolveType resolveSize paths _ fpath st Hp Hi)
      as (st1 & Hrun & Hem & Hcalls & Hout).
    cbn [forPaths attempted firstError]. unfold bind at 1. rewrite Hrun.
    destruct (snd (traversal api (resolveSize || resolveType) fpath)) as [e|] eqn:E.
    { exists st1. cbn. rewrite app_nil_r. repeat split; try done.
      now rewrite Hout. }
    cbn [ended].
    assert (Hlen1 : length (output st1) = length paths)
      by (rewrite Hout, length_insert; exact Hlen).
    destruct (IH (done_ ++ [fpath]) st1) as (st2 & Hrun2 & Hem2 & Hcalls2 & Hlen2 & Hout2).
    { subst paths. now rewrite <- app_assoc. }
    { exact Hlen1. }
    replace (length (done_ ++ [fpath])) with (S (length done_)) in *
      by (rewrite length_app; cbn; lia).
    exists st2. rewrite Hrun2. repeat split.
    + now rewrite Hem2.
    + rewrite Hcalls2, Hcalls. cbn. now rewrite <- !app_assoc.
    + exact Hlen2.
    + intros HfE. rewrite (Hout2 HfE), Hout.
      rewrite (take_S_r _ _ (sortedGroup api enc (resolveSize || resolveType) fpath))
        by (now apply list_lookup_insert_eq).
      rewrite take_insert_ge by lia. cbn. now rewrite <- app_assoc.
Qed.

End DriverFacts.

Section RunFacts.
Context {imports : Imports}.

Lemma Run_stream req env api enc :
  GetApi env = inr api ->
  ParseBodyArgs env = None ->
  GetCidEncoder env = inr enc ->
  boolOption req lsStreamOptionName = true ->
  (forall h u, sink h u = None) ->
  let rc := boolOption req lsSizeOptionName || boolOption req lsResolveTypeOptionName in
  Run req env initial
  = (ended (firstError api rc (Arguments req)),
     {| emitted := flat_map (fun p => streamUnits enc p (fst (traversal api rc p)))
                     (attempted api rc (Arguments req));
        lsCalls := flat_map (callsOf rc) (attempted api rc (Arguments req));
        output := []; outputLinks := [] |}).
Proof.
  intros Hapi Hparse Henc Hstream Hsink rc. unfold Run.
  rewrite Hapi, Hparse, Henc, Hstream. cbn [negb].
  unfold bind at 1. unfold try at 1.
  unfold bind at 1. unfold check at 1.
  unfold bind at 1. unfold try at 1.
  unfold bind at 1. unfold ret at 1.
  unfold bind at 1. cbn [fst snd].
  rewrite (forPaths_stream api enc _ _ (Arguments req) Hsink (Arguments req) [] initial eq_refl).
  fold rc. destruct (firstError api rc (Arguments req)); reflexivity.
Qed.

Lemma Run_batch req env api enc :
  GetApi env = inr api ->
  ParseBodyArgs env = None ->
  GetCidEncoder env = inr enc ->
  boolOption req lsStreamOptionName = false ->
  let rc := boolOption req lsSizeOptionName || boolOption req lsResolveTypeOptionName in
  let v := {| LsOutput.Objects := map (sortedGroup api enc rc) (Arguments req) |} in
  exists st',
    Run req env initial
    = (match firstError api rc (Arguments req) with
       | Some e => Error e
       | None => ended (sink [] v)
       end, st')
    /\ emitted st' = (if firstError api rc (Arguments req) is None then [v] else [])
    /\ lsCalls st' = flat_map (callsOf rc) (attempted api rc (Arguments req)).
Proof.
  intros Hapi Hparse Henc Hstream rc v. unfold Run.
  rewrite Hapi, Hparse, Henc, Hstream. cbn [negb].
  unfold bind at 1. unfold try at 1.
  unfold bind at 1. unfold check at 1.
  unfold bind at 1. unfold try at 1.
  unfold bind at 1. unfold bind at 1. unfold setOutput at 1. unfold ret at 1.
  unfold bind at 1. cbn [fst snd].
  set (st0 := {| emitted := emitted initial; lsCalls := lsCalls initial;
                 output := replicate (length (Arguments req)) LsObject.zero;
                 outputLinks := outputLinks initial |}).
  destruct (forPaths_batch api enc (boolOption req lsResolveTypeOptionName)
              (boolOption req lsSizeOptionName) (Arguments req) (Arguments req) [] st0 eq_refl)
    as (st1 & Hrun & Hem & Hcalls & Hlen & Hout).
  { cbn. apply length_replicate. }
  cbn [length] in Hrun. rewrite Hrun. fold rc in Hrun, Hcalls, Hout |- *.
  destruct (firstError api rc (Arguments req)) as [e|].
  { exists st1. cbn. repeat split; [exact Hem | exact Hcalls]. }
  cbn [ended]. specialize (Hout eq_refl). cbn [length] in Hout.
  rewrite take_0, app_nil_l in Hout. fold v in Hout.
  unfold done_batch, bind, getOutput, EmitOnce, Emit. rewrite Hout, Hem.
  cbn [emitted st0 initial app]. fold v.
  destruct (sink [] v); (eexists; split; [reflexivity|]); cbn; auto.
Qed.


Lemma keepsCalls_ret {A} (a : A) : keepsCalls (ret a).
Proof. intros st. reflexivity. Qed.

Lemma keepsCalls_bind {A B} (m : M A) (k : A -> M B) :
  keepsCalls m -> (forall a, keepsCalls (k a)) -> keepsCalls (bind m k).
Proof.
  intros Hm Hk st. unfold bind. specialize (Hm st).
  destruct (m st) as [[a|e|] st']; cbn in *; [rewrite Hk|..]; exact Hm.
Qed.

Lemma keepsCalls_Emit v : keepsCalls (Emit v).
Proof. intros st. unfold Emit. now destruct (sink (emitted st) v). Qed.

Lemma keepsCalls_setOutput v : keepsCalls (setOutput v).
Proof. intros st. reflexivity. Qed.

Lemma keepsCalls_setOutputLinks v : keepsCalls (setOutputLinks v).
Proof. intros st. reflexivity. Qed.

Lemma keepsCalls_getOutput : keepsCalls getOutput.
Proof. intros st. reflexivity. Qed.

Lemma keepsCalls_getOutputLinks : keepsCalls getOutputLinks.
Proof. intros st. reflexivity. Qed.

Lemma keepsCalls_index {A} (xs : list A) i : keepsCalls (index xs i).
Proof. intros st. unfold index. now destruct (xs !! i). Qed.

Lemma keepsCalls_check err : keepsCalls (check err).
Proof. intros st. unfold check. now destruct err. Qed.

Lemma keepsCalls_forLinks enc f paths i results :
  (forall p l, keepsCalls (f p l)) -> keepsCalls (forLinks enc f paths i results).
Proof.
  intros Hf. induction results as [|link results IH]; cbn [forLinks].
  - apply keepsCalls_ret.
  - apply keepsCalls_bind; [apply keepsCalls_index|]. intros p.
    apply keepsCalls_bind; [apply Hf|]. intros _. exact IH.
Qed.

Lemma quietDir_stream : quietDir processDir_stream.
Proof.
  split; [apply keepsCalls_ret|].
  intros st fs st' E. unfold processDir_stream, ret in E. injection E as <- _.
  split; intros; [apply keepsCalls_Emit | apply keepsCalls_ret].
Qed.

Lemma keepsCalls_batch_dirDone paths i : keepsCalls (batch_dirDone paths i).
Proof.
  unfold batch_dirDone.
  apply keepsCalls_bind; [apply keepsCalls_getOutputLinks|]. intros l.
  apply keepsCalls_bind; [apply keepsCalls_setOutputLinks|]. intros _.
  apply keepsCalls_bind; [apply keepsCalls_getOutputLinks|]. intros l'.
  apply keepsCalls_bind; [apply keepsCalls_index|]. intros p.
  apply keepsCalls_bind; [apply keepsCalls_getOutput|]. intros o.
  destruct (i <? length o)%nat; [apply keepsCalls_setOutput|]. intros st. reflexivity.
Qed.

Lemma quietDir_batch paths : quietDir (processDir_batch paths).
Proof.
  split.
  - unfold processDir_batch.
    apply keepsCalls_bind; [apply keepsCalls_setOutputLinks|]. intros _.
    apply keepsCalls_ret.
  - intros st fs st' E. unfold processDir_batch, bind, setOutputLinks, ret in E.
    injection E as <- _. split.
    + intros p l. unfold processLink, batch_processLink.
      apply keepsCalls_bind; [apply keepsCalls_getOutputLinks|]. intros ?.
      apply keepsCalls_setOutputLinks.
    + intros i. apply keepsCalls_batch_dirDone.
Qed.

Lemma forPath_calls api enc resolveType resolveSize processDir paths i fpath st :
  quietDir processDir ->
  lsCalls (snd (forPath api enc resolveType resolveSize processDir paths i fpath st))
  = lsCalls st ++ callsOf (resolveSize || resolveType) fpath
  /\ (fst (forPath api enc resolveType resolveSize processDir paths i fpath st) = Ok tt ->
      exists pth, PathOrCidPath fpath = inr pth).
Proof.
  intros [Hpd Hfs]. unfold forPath, callsOf.
  unfold bind at 1 3. unfold try.
  destruct (PathOrCidPath fpath) as [e|pth].
  { cbn. rewrite app_nil_r. split; [reflexivity | discriminate]. }
  split; [|eauto].
  unfold bind at 1. unfold goLs at 1.
  set (st1 := {| emitted := emitted st;
                 lsCalls := lsCalls st ++ [(pth, resolveSize || resolveType)];
                 output := output st; outputLinks := outputLinks st |}).
  change (lsCalls st ++ [(pth, resolveSize || resolveType)]) with (lsCalls st1).
  unfold bind at 1. pose proof (Hpd st1) as Hpd1.
  destruct (processDir st1) as [[fs|e|] st2] eqn:E; cbn [snd] in *; try exact Hpd1.
  destruct (Hfs _ _ _ E) as [Hlink Hdone]. rewrite <- Hpd1.
  apply (keepsCalls_bind (forLinks enc (processLink fs) paths i _)).
  - now apply keepsCalls_forLinks.
  - intros _. apply keepsCalls_bind; [apply keepsCalls_check|]. intros _. apply Hdone.
Qed.

Lemma forPaths_calls api enc resolveType resolveSize processDir paths :
  quietDir processDir ->
  forall rest i st,
    exists cs,
      lsCalls (snd (forPaths api enc resolveType resolveSize processDir paths i rest st))
      = lsCalls st ++ cs
      /\ Forall (fun c => snd c = resolveSize || resolveType) cs
      /\ (fst (forPaths api enc resolveType resolveSize processDir paths i rest st) = Ok tt ->
          Forall2 (fun fpath c => PathOrCidPath fpath = inr (fst c)
                                  /\ snd c = resolveSize || resolveType) rest cs).
Proof.
  intros Hq rest. induction rest as [|fpath rest IH]; intros i st.
  - exists []. cbn. rewrite app_nil_r. repeat split; constructor.
  - cbn [forPaths]. unfold bind.
    destruct (forPath_calls api enc resolveType resolveSize processDir paths i fpath st Hq)
      as [Hcalls Hok].
    assert (Hflag : Forall (fun c => snd c = resolveSize || resolveType)
                      (callsOf (resolveSize || resolveType) fpath)).
    { unfold callsOf. destruct (PathOrCidPath fpath); repeat constructor. }
    destruct (forPath api enc resolveType resolveSize processDir paths i fpath st)
      as [[[]|e|] st1]; cbn [fst snd] in *.
    + destruct (IH (S i) st1) as (cs & Hcs & Hall & Hok2).
      destruct (Hok eq_refl) as [pth Hpth].
      exists (callsOf (resolveSize || resolveType) fpath ++ cs).
      rewrite Hcs, Hcalls, <- app_assoc. repeat split.
      * apply Forall_app; auto.
      * intros Hr. unfold callsOf. rewrite Hpth. cbn. constructor; [now rewrite Hpth|].
        now apply Hok2.
    + exists (callsOf (resolveSize || resolveType) fpath). repeat split; [assumption..|].
      discriminate.
    + exists (callsOf (resolveSize || resolveType) fpath). repeat split; [assumption..|].
      discriminate.
Qed.

Lemma Run_calls req env :
  exists cs,
    lsCalls (snd (Run req env initial)) = cs
    /\ Forall (fun c => snd c = boolOption req lsSizeOptionName
                                || boolOption req lsResolveTypeOptionName) cs
    /\ (fst (Run req env initial) = Ok tt ->
        Forall2 (fun fpath c =>
                   PathOrCidPath fpath = inr (fst c)
                   /\ snd c = boolOption req lsSizeOptionName
                               || boolOption req lsResolveTypeOptionName)
          (Arguments req) cs).
Proof.
  remember (Run req env initial) as r eqn:Hr. unfold Run in Hr.
  unfold bind at 1 in Hr. unfold try at 1 in Hr.
  destruct (GetApi env) as [e|api].
  { subst r. exists []. cbn. repeat split; [constructor | discriminate]. }
  unfold bind at 1 in Hr. unfold check at 1 in Hr.
  destruct (ParseBodyArgs env) as [e|].
  { subst r. exists []. cbn. repeat split; [constructor | discriminate]. }
  unfold bind at 1 in Hr. unfold try at 1 in Hr.
  destruct (GetCidEncoder env) as [e|enc].
  { subst r. exists []. cbn. repeat split; [constructor | discriminate]. }
  destruct (boolOption req lsStreamOptionName); cbn [negb] in Hr.
  - unfold bind at 1 in Hr. unfold ret at 1 in Hr. unfold bind at 1 in Hr.
    cbn [fst snd] in Hr.
    destruct (forPaths_calls api enc (boolOption req lsResolveTypeOptionName)
                (boolOption req lsSizeOptionName) processDir_stream (Arguments req)
                quietDir_stream (Arguments req) 0%nat initial) as (cs & Hcs & Hall & Hok).
    destruct (forPaths _ _ _ _ _ _ _ _ _) as [[[]|e|] st1]; subst r; cbn [fst snd] in *;
      exists cs; (split; [exact Hcs|]); (split; [exact Hall|]);
      first [exact Hok | discriminate].
  - unfold bind at 1 in Hr. unfold bind at 1 in Hr. unfold setOutput at 1 in Hr.
    unfold ret at 1 in Hr. unfold bind at 1 in Hr. cbn [fst snd] in Hr.
    match type of Hr with context [forPaths _ _ _ _ _ _ _ _ ?s] => set (st0 := s) in * end.
    destruct (forPaths_calls api enc (boolOption req lsResolveTypeOptionName)
                (boolOption req lsSizeOptionName) (processDir_batch (Arguments req))
                (Arguments req) (quietDir_batch _) (Arguments req) 0%nat st0)
      as (cs & Hcs & Hall & Hok).
    destruct (forPaths _ _ _ _ _ _ _ _ _) as [[[]|e|] st1]; subst r; cbn [fst snd] in *;
      try (exists cs; (split; [exact Hcs|]); (split; [exact Hall|]); discriminate).
    exists cs. split.
    + transitivity (lsCalls st1); [|exact Hcs].
      apply (keepsCalls_bind getOutput); [apply keepsCalls_getOutput|].
      intros o. apply keepsCalls_Emit.
    + split; [exact Hall|]. intros _. now apply Hok.
Qed.

End RunFacts.

(** ** Streaming with an arbitrary emitter *)

Section StreamPrefix.
Context {imports : Imports}.

Lemma take_app_any {A} (k : nat) (u m : list A) :
  take k u = take (k `min` length u) (u ++ m).
Proof.
  rewrite take_app_le by lia.
  destruct (Nat.le_gt_cases k (length u)) as [H|H].
  - now rewrite Nat.min_l by exact H.
  - rewrite Nat.min_r by lia. now rewrite !take_ge by lia.
Qed.

Lemma forLinks_stream_prefix enc paths i p results :
  paths !! i = Some p ->
  forall st,
    exists k,
      snd (forLinks enc stream_processLink paths i results st)
      = {| emitted := emitted st ++ take k (streamUnits enc p results);
           lsCalls := lsCalls st; output := output st;
           outputLinks := outputLinks st |}
      /\ (fst (forLinks enc stream_processLink paths i results st) = Ok tt ->
          take k (streamUnits enc p results) = streamUnits enc p results).
Proof.
  intros Hp. induction results as [|link results IH]; intros st.
  - exists 0%nat. cbn. rewrite app_nil_r. split; [now destruct st | reflexivity].
  - remember (forLinks enc stream_processLink paths i (link :: results) st) as r eqn:Hr.
    cbn [forLinks] in Hr. unfold bind at 1 in Hr. unfold index in Hr. rewrite Hp in Hr.
    unfold bind at 1 in Hr.
    destruct (stream_processLink p (lsLinkOf enc link) st) as [res st1] eqn:E.
    unfold stream_processLink, Emit in E.
    destruct (sink (emitted st) _) as [e|]; injection E as <- <-.
    + exists 1%nat. subst r. cbn. split; [reflexivity | discriminate].
    + match type of Hr with context [forLinks _ _ _ _ _ ?s] =>
        destruct (IH s) as (k & Hst & Hok) end.
      exists (S k). subst r. rewrite Hst. cbn [emitted lsCalls output outputLinks].
      cbn [streamUnits map take]. rewrite <- app_assoc. split; [reflexivity|].
      intros H. specialize (Hok H). unfold streamUnits in Hok. now rewrite Hok.
Qed.

Lemma forPath_stream_prefix api enc resolveType resolveSize paths i fpath st :
  paths !! i = Some fpath ->
  exists k,
    emitted (snd (forPath api enc resolveType resolveSize processDir_stream paths i fpath st))
    = emitted st
      ++ take k (streamUnits enc fpath
                   (fst (traversal api (resolveSize || resolveType) fpath)))
    /\ (fst (forPath api enc resolveType resolveSize processDir_stream paths i fpath st)
        = Ok tt ->
        snd (traversal api (resolveSize || resolveType) fpath) = None
        /\ take k (streamUnits enc fpath
                     (fst (traversal api (resolveSize || resolveType) fpath)))
           = streamUnits enc fpath
               (fst (traversal api (resolveSize || resolveType) fpath))).
Proof.
  intros Hp.
  remember (forPath api enc resolveType resolveSize processDir_stream paths i fpath st)
    as r eqn:Hr.
  unfold forPath in Hr. unfold traversal.
  unfold bind at 1 in Hr. unfold try in Hr.
  destruct (PathOrCidPath fpath) as [e|pth].
  { exists 0%nat. subst r. cbn. rewrite app_nil_r. split; [reflexivity | discriminate]. }
  unfold bind at 1 in Hr. unfold goLs at 1 in Hr.
  unfold bind at 1 in Hr. unfold processDir_stream, ret at 1 in Hr.
  unfold bind at 1 in Hr. cbn [processLink dirDone] in Hr.
  match type of Hr with context [forLinks _ _ _ _ ?es ?s] =>
    destruct (forLinks_stream_prefix enc paths i fpath es Hp s) as (k & Hst & Hok) end.
  exists k.
  destruct (forLinks enc stream_processLink paths i _ _) as [[[]|e|] st1];
    cbn [fst snd] in *; subst st1.
  - destruct (Unixfs_Ls api pth (resolveSize || resolveType)) as [es [e|]];
      subst r; cbn [fst snd check bind stream_dirDone ret emitted] in *.
    + split; [reflexivity | discriminate].
    + split; [reflexivity|]. intros _. split; [reflexivity|]. now apply Hok.
  - subst r. split; [reflexivity | discriminate].
  - subst r. split; [reflexivity | discriminate].
Qed.

Lemma forPaths_stream_prefix api enc resolveType resolveSize paths :
  forall rest done_ st,
    paths = done_ ++ rest ->
    exists k,
      emitted (snd (forPaths api enc resolveType resolveSize processDir_stream paths
                      (length done_) rest st))
      = emitted st
        ++ take k (flat_map (fun p => streamUnits enc p
                               (fst (traversal api (resolveSize || resolveType) p))) rest)
      /\ (fst (forPaths api enc resolveType resolveSize processDir_stream paths
                 (length done_) rest st) = Ok tt ->
          Forall (fun p => snd (traversal api (resolveSize || resolveType) p) = None) rest
          /\ take k (flat_map (fun p => streamUnits enc p
                                 (fst (traversal api (resolveSize || resolveType) p))) rest)
             = flat_map (fun p => streamUnits enc p
                           (fst (traversal api (resolveSize || resolveType) p))) rest).
Proof.
  intros rest. induction rest as [|fpath rest IH]; intros done_ st Hpaths.
  - exists 0%nat. cbn. rewrite app_nil_r. split; [reflexivity|]. intros _. split; constructor.
  - assert (Hp : paths !! length done_ = Some fpath)
      by (subst paths; now apply list_lookup_middle).
    destruct (forPath_stream_prefix api enc resolveType resolveSize paths _ fpath st Hp)
      as (k1 & Hem1 & Hok1).
    remember (forPaths api enc resolveType resolveSize processDir_stream paths
                (length done_) (fpath :: rest) st) as r eqn:Hr.
    cbn [forPaths] in Hr. unfold bind in Hr. cbn [flat_map].
    destruct (forPath api enc resolveType resolveSize processDir_stream paths
                (length done_) fpath st) as [[[]|e|] st1]; subst r; cbn [fst snd] in *.
    + destruct (Hok1 eq_refl) as [Htr Hfull]. rewrite Hfull in Hem1.
      destruct (IH (done_ ++ [fpath]) st1) as (k2 & Hem2 & Hok2).
      { subst paths. now rewrite <- app_assoc. }
      replace (length (done_ ++ [fpath])) with (S (length done_)) in *
        by (rewrite length_app; cbn; lia).
      set (u := streamUnits enc fpath
                  (fst (traversal api (resolveSize || resolveType) fpath))) in *.
      exists (length u + k2)%nat.
      rewrite Hem2, Hem1, <- app_assoc, take_app_add. split; [reflexivity|].
      intros H. destruct (Hok2 H) as [Hall Hfull2]. split; [now constructor|].
      now rewrite Hfull2.
    + exists (k1 `min` length (streamUnits enc fpath
                       (fst (traversal api (resolveSize || resolveType) fpath))))%nat.
      split; [|discriminate].
      rewrite Hem1. f_equal. apply take_app_any.
    + exists (k1 `min` length (streamUnits enc fpath
                       (fst (traversal api (resolveSize || resolveType) fpath))))%nat.
      split; [|discriminate].
      rewrite Hem1. f_equal. apply take_app_any.
Qed.

Lemma Run_stream_prefix req env api enc :
  GetApi env = inr api ->
  ParseBodyArgs env = None ->
  GetCidEncoder env = inr enc ->
  boolOption req lsStreamOptionName = true ->
  let rc := boolOption req lsSizeOptionName || boolOption req lsResolveTypeOptionName in
  let expected :=
    flat_map (fun p => streamUnits enc p (fst (traversal api rc p))) (Arguments req) in
  exists k,
    emitted (snd (Run req env initial)) = take k expected
    /\ (fst (Run req env initial) = Ok tt ->
        Forall (fun p => snd (traversal api rc p) = None) (Arguments req)
        /\ emitted (snd (Run req env initial)) = expected).
Proof.
  intros Hapi Hparse Henc Hstream rc expected.
  remember (Run req env initial) as r eqn:Hr. unfold Run in Hr.
  rewrite Hapi, Hparse, Henc, Hstream in Hr. cbn [negb] in Hr.
  unfold bind at 1 in Hr. unfold try at 1 in Hr.
  unfold bind at 1 in Hr. unfold check at 1 in Hr.
  unfold bind at 1 in Hr. unfold try at 1 in Hr.
  unfold bind at 1 in Hr. unfold ret at 1 in Hr.
  unfold bind at 1 in Hr. cbn [fst snd] in Hr.
  destruct (forPaths_stream_prefix api enc (boolOption req lsResolveTypeOptionName)
              (boolOption req lsSizeOptionName) (Arguments req) (Arguments req) [] initial
              eq_refl) as (k & Hem & Hok).
  cbn [length] in Hem, Hok. fold rc in Hem, Hok. fold expected in Hem, Hok.
  exists k.
  destruct (forPaths _ _ _ _ _ _ _ _ _) as [[[]|e|] st1]; subst r; cbn [fst snd ret] in *.
  - split; [exact Hem|]. intros _. destruct (Hok eq_refl) as [Hall Hfull].
    split; [exact Hall|]. now rewrite Hem, Hfull.
  - split; [exact Hem | discriminate].
  - split; [exact Hem | discriminate].
Qed.

End StreamPrefix.

(** ** The claims about the driver *)

Lemma length_flat_map_sum {A B} (f : A -> list B) (l : list A) :
  length (flat_map f l) = sum_list (map (fun a => length (f a)) l).
Proof.
  induction l as [|a l IH]; [reflexivity|].
  cbn. now rewrite length_app, IH.
Qed.

Section DriverProperties.

Context {imports : Imports}.

(** C1.  Without the [stream] option, when the traversal of every requested
    path ends without error, [Run] hands exactly one value to the emitter.
    It holds one object per requested path, in request order; the object of
    a path has that path string as its [Hash], holds exactly the links
    built from the entries received for the path (none when there were
    none), and these are in ascending order of [Name] under byte-wise
    comparison.  [Run] returns what the emitter returns for that value.
    ([slices.SortFunc] is taken with its documented behaviour,
    [SortFunc_contract]; the comparison by name is a strict weak ordering,
    [byName_strict_weak].) *)
Theorem batch_emits_one_sorted_value (req : Request) (env : Environment)
    (api : CoreAPI) (enc : Encoder) :
  SortFunc_contract SortFunc ->
  GetApi env = inr api ->
  ParseBodyArgs env = None ->
  GetCidEncoder env = inr enc ->
  boolOption req lsStreamOptionName = false ->
  let rc := boolOption req lsSizeOptionName || boolOption req lsResolveTypeOptionName in
  Forall (fun p => snd (traversal api rc p) = None) (Arguments req) ->
  exists groups : list LsObject.t,
    emitted (snd (Run req env initial)) = [ {| LsOutput.Objects := groups |} ]
    /\ fst (Run req env initial) = ended (sink [] {| LsOutput.Objects := groups |})
    /\ length groups = length (Arguments req)
    /\ Forall2
         (fun p g =>
            LsObject.Hash g = p
            /\ LsObject.Links g ≡ₚ map (lsLinkOf enc) (fst (traversal api rc p))
            /\ StronglySorted nameLe (LsObject.Links g)
            /\ (fst (traversal api rc p) = [] -> LsObject.Links g = []))
         (Arguments req) groups.
Proof.
  intros Hsort Hapi Hparse Henc Hstream rc Hall.
  destruct (Run_batch req env api enc Hapi Hparse Henc Hstream)
    as (st' & Hrun & Hem & _).
  fold rc in Hrun, Hem.
  destruct (attempted_all api rc (Arguments req) Hall) as [_ HfE].
  rewrite HfE in Hrun, Hem.
  exists (map (sortedGroup api enc rc) (Arguments req)).
  rewrite Hrun. cbn [fst snd]. repeat split.
  - exact Hem.
  - now rewrite length_map.
  - clear Hall Hrun Hem HfE.
    induction (Arguments req) as [|p ps IH]; cbn [map]; constructor; [|exact IH].
    destruct (Hsort byName (map (lsLinkOf enc) (fst (traversal api rc p)))
                byName_strict_weak) as [Hperm Hsorted].
    cbn [sortedGroup LsObject.Hash LsObject.Links]. repeat split.
    + exact Hperm.
    + eapply StronglySorted_weaken; [|exact Hsorted].
      intros a b. apply not_less_nameLe.
    + intros Hnil. rewrite Hnil in Hperm |- *. cbn [map] in Hperm |- *.
      now apply Permutation_nil_r.
Qed.

(** C2.  With the [stream] option, when the traversal of every requested
    path ends without error: whatever the emitter answers, the values handed
    to it are an initial segment of the sequence that has exactly one value
    per entry received, in the order of the paths and of their entries, each
    value holding exactly one object, whose [Hash] is the requested path
    string being traversed and whose only link is the one built from the
    entry.  When [Run] returns no error, the whole sequence has been handed
    over, so that the number of values is the total number of entries over
    all paths; and [Run] returns no error when the emitter accepts what it
    is handed. *)
Theorem stream_emits_one_value_per_entry (req : Request) (env : Environment)
    (api : CoreAPI) (enc : Encoder) :
  GetApi env = inr api ->
  ParseBodyArgs env = None ->
  GetCidEncoder env = inr enc ->
  boolOption req lsStreamOptionName = true ->
  let rc := boolOption req lsSizeOptionName || boolOption req lsResolveTypeOptionName in
  Forall (fun p => snd (traversal api rc p) = None) (Arguments req) ->
  let expected :=
    flat_map
      (fun p =>
         map (fun e => {| LsOutput.Objects :=
                            [ {| LsObject.Hash := p;
                                 LsObject.Links := [lsLinkOf enc e] |} ] |})
           (fst (traversal api rc p)))
      (Arguments req) in
  (exists k, emitted (snd (Run req env initial)) = take k expected)
  /\ (fst (Run req env initial) = Ok tt ->
      emitted (snd (Run req env initial)) = expected
      /\ length (emitted (snd (Run req env initial)))
         = sum_list (map (fun p => length (fst (traversal api rc p))) (Arguments req)))
  /\ ((forall h u, sink h u = None) -> fst (Run req env initial) = Ok tt).
Proof.
  intros Hapi Hparse Henc Hstream rc Hall expected.
  destruct (Run_stream_prefix req env api enc Hapi Hparse Henc Hstream)
    as (k & Hk & Hok).
  fold rc in Hk, Hok. change (flat_map _ (Arguments req)) with expected in Hk, Hok.
  split; [|split].
  - exists k. exact Hk.
  - intros H. destruct (Hok H) as [_ Hfull]. split; [exact Hfull|].
    rewrite Hfull. unfold expected. rewrite length_flat_map_sum. f_equal.
    apply map_ext. intros p. now rewrite length_map.
  - intros Hsink.
    rewrite (Run_stream req env api enc Hapi Hparse Henc Hstream Hsink). fold rc.
    destruct (attempted_all api rc (Arguments req) Hall) as [_ HfE].
    now rewrite HfE.
Qed.

(** C3.  When the traversals of the requested paths before [p] end without
    error and that of [p] ends with the error [e], [Run] returns [e] and
    calls [Ls] for no later path.  Without the [stream] option nothing at
    all has been handed to the emitter.  With it (and an emitter that
    accepts what it is handed), the values for the entries of the earlier
    paths, and for the entries of [p] received before the error, have been
    handed over and stay so. *)
Theorem first_error_aborts (req : Request) (env : Environment)
    (api : CoreAPI) (enc : Encoder) (pre post : list string) (p : string) (e : Err) :
  GetApi env = inr api ->
  ParseBodyArgs env = None ->
  GetCidEncoder env = inr enc ->
  Arguments req = pre ++ p :: post ->
  let rc := boolOption req lsSizeOptionName || boolOption req lsResolveTypeOptionName in
  Forall (fun q => snd (traversal api rc q) = None) pre ->
  snd (traversal api rc p) = Some e ->
  (boolOption req lsStreamOptionName = false ->
     fst (Run req env initial) = Error e
     /\ emitted (snd (Run req env initial)) = []
     /\ lsCalls (snd (Run req env initial)) = flat_map (callsOf rc) (pre ++ [p]))
  /\ (boolOption req lsStreamOptionName = true ->
      (forall h u, sink h u = None) ->
      fst (Run req env initial) = Error e
      /\ emitted (snd (Run req env initial))
         = flat_map (fun q => streamUnits enc q (fst (traversal api rc q))) (pre ++ [p])
      /\ lsCalls (snd (Run req env initial)) = flat_map (callsOf rc) (pre ++ [p])).
Proof.
  intros Hapi Hparse Henc Hargs rc Hpre Hp.
  destruct (attempted_until api rc pre p post e Hpre Hp) as [Hatt HfE].
  split.
  - intros Hstream.
    destruct (Run_batch req env api enc Hapi Hparse Henc Hstream)
      as (st' & Hrun & Hem & Hcalls).
    fold rc in Hrun, Hem, Hcalls. rewrite Hargs, HfE in Hrun, Hem.
    rewrite Hargs, Hatt in Hcalls. rewrite Hrun. cbn [fst snd]. auto.
  - intros Hstream Hsink.
    rewrite (Run_stream req env api enc Hapi Hparse Henc Hstream Hsink). fold rc.
    rewrite Hargs, Hatt, HfE. cbn [fst snd emitted lsCalls ended]. auto.
Qed.

(** C7.  The type code of a received entry is classified by a total
    function: [iface.TFile], [iface.TDirectory] and [iface.TSymlink] map to
    the [unixfs] constants of the same names, and every other code maps to
    the zero value of [unixfs_pb.Data_DataType] (its [Raw]), which stands
    for every other or unknown kind; no code makes the classification
    fail, and the link built from an entry carries the classified type.
    (The three [case] constants are distinct: Go rejects a [switch] with
    duplicate constant cases.) *)
Theorem kind_classification (t : Z) :
  NoDup [iface_TFile; iface_TDirectory; iface_TSymlink] ->
  (t = iface_TFile -> ftypeOf t = unixfs.TFile)
  /\ (t = iface_TDirectory -> ftypeOf t = unixfs.TDirectory)
  /\ (t = iface_TSymlink -> ftypeOf t = unixfs.TSymlink)
  /\ (t ∉ [iface_TFile; iface_TDirectory; iface_TSymlink] -> ftypeOf t = unixfs.TRaw)
  /\ ftypeOf t ∈ [unixfs.TFile; unixfs.TDirectory; unixfs.TSymlink; unixfs.TRaw]
  /\ forall enc e, LsLink.Type_ (lsLinkOf enc e) = ftypeOf (DirEntry.Type_ e).
Proof.
  intros Hnd.
  apply NoDup_cons in Hnd as [H1 Hnd]. apply NoDup_cons in Hnd as [H2 _].
  rewrite !elem_of_cons, elem_of_nil in H1. rewrite !elem_of_cons, elem_of_nil in H2.
  assert (D12 : iface_TFile <> iface_TDirectory) by tauto.
  assert (D13 : iface_TFile <> iface_TSymlink) by tauto.
  assert (D23 : iface_TDirectory <> iface_TSymlink) by tauto.
  clear H1 H2. unfold ftypeOf.
  destruct (Z.eqb_spec t iface_TFile) as [E1|N1];
    destruct (Z.eqb_spec t iface_TDirectory) as [E2|N2];
    destruct (Z.eqb_spec t iface_TSymlink) as [E3|N3];
    try congruence;
    repeat split; try reflexivity; try congruence;
    rewrite ?elem_of_cons, ?elem_of_nil; tauto.
Qed.

(** [Run] reads the traversal only at the [ResolveChildren] setting it
    passes: two APIs that answer alike at that setting give the same run. *)
Lemma forPath_same_feed api api' enc resolveType resolveSize processDir paths i fpath st :
  (forall pth, Unixfs_Ls api' pth (resolveSize || resolveType)
               = Unixfs_Ls api pth (resolveSize || resolveType)) ->
  forPath api' enc resolveType resolveSize processDir paths i fpath st
  = forPath api enc resolveType resolveSize processDir paths i fpath st.
Proof.
  intros Hsame. unfold forPath, bind, try.
  destruct (PathOrCidPath fpath) as [e|pth]; [reflexivity|].
  unfold goLs. now rewrite Hsame.
Qed.

Lemma forPaths_same_feed api api' enc resolveType resolveSize processDir paths :
  (forall pth, Unixfs_Ls api' pth (resolveSize || resolveType)
               = Unixfs_Ls api pth (resolveSize || resolveType)) ->
  forall rest i st,
    forPaths api' enc resolveType resolveSize processDir paths i rest st
    = forPaths api enc resolveType resolveSize processDir paths i rest st.
Proof.
  intros Hsame rest. induction rest as [|fpath rest IH]; intros i st; [reflexivity|].
  cbn [forPaths]. unfold bind.
  rewrite (forPath_same_feed api api' _ _ _ _ _ _ _ _ Hsame).
  destruct (forPath api enc resolveType resolveSize processDir paths i fpath st)
    as [[[]|e|] st1]; [apply IH | reflexivity..].
Qed.

Lemma Run_same_feed req env api api' :
  GetApi env = inr api ->
  (forall pth,
     Unixfs_Ls api' pth (boolOption req lsSizeOptionName
                         || boolOption req lsResolveTypeOptionName)
     = Unixfs_Ls api pth (boolOption req lsSizeOptionName
                          || boolOption req lsResolveTypeOptionName)) ->
  Run req {| GetApi := inr api'; ParseBodyArgs := ParseBodyArgs env;
             GetCidEncoder := GetCidEncoder env |} initial
  = Run req env initial.
Proof.
  intros Hapi Hsame. unfold Run. cbn [GetApi ParseBodyArgs GetCidEncoder].
  rewrite Hapi.
  destruct (ParseBodyArgs env) as [e|]; [reflexivity|].
  destruct (GetCidEncoder env) as [e|enc]; [reflexivity|].
  destruct (boolOption req lsStreamOptionName); cbn [negb];
    unfold bind, try, check, ret, setOutput; cbn [fst snd];
    now rewrite (forPaths_same_feed api api' _ _ _ _ _ Hsame).
Qed.

(** The result of a run whose emitter accepts every value is that of the
    traversals made with [ResolveChildren] set to [size || resolve-type]. *)
Lemma Run_result req env api enc :
  GetApi env = inr api ->
  ParseBodyArgs env = None ->
  GetCidEncoder env = inr enc ->
  (forall h u, sink h u = None) ->
  fst (Run req env initial)
  = ended (firstError api (boolOption req lsSizeOptionName
                           || boolOption req lsResolveTypeOptionName) (Arguments req)).
Proof.
  intros Hapi Hargs Henc Hsink.
  destruct (boolOption req lsStreamOptionName) eqn:Hstream.
  - now rewrite (Run_stream req env api enc Hapi Hargs Henc Hstream Hsink).
  - destruct (Run_batch req env api enc Hapi Hargs Henc Hstream) as (st' & -> & _).
    cbn [fst]. rewrite Hsink. now destruct (firstError _ _ _).
Qed.

Lemma firstError_None api rc ps :
  firstError api rc ps = None ->
  Forall (fun p => snd (traversal api rc p) = None) ps.
Proof.
  induction ps as [|p ps IH]; cbn [firstError]; intros H; constructor.
  - now destruct (snd (traversal api rc p)).
  - apply IH. now destruct (snd (traversal api rc p)).
Qed.

(** What a run that returns no error has handed to the emitter: the entries
    the traversals gave with [ResolveChildren] set to
    [size || resolve-type], none of them having failed. *)
Lemma Run_listed req env api enc :
  GetApi env = inr api ->
  GetCidEncoder env = inr enc ->
  fst (Run req env initial) = Ok tt ->
  let rc := boolOption req lsSizeOptionName || boolOption req lsResolveTypeOptionName in
  Forall (fun p => snd (traversal api rc p) = None) (Arguments req)
  /\ emitted (snd (Run req env initial))
     = if boolOption req lsStreamOptionName
       then flat_map (fun p => streamUnits enc p (fst (traversal api rc p))) (Arguments req)
       else [ {| LsOutput.Objects := map (sortedGroup api enc rc) (Arguments req) |} ].
Proof.
  intros Hapi Henc Hok rc.
  assert (Hargs : ParseBodyArgs env = None).
  { destruct (ParseBodyArgs env) as [e|] eqn:E; [|reflexivity].
    exfalso. revert Hok. unfold Run, bind, try, check. rewrite Hapi, E. discriminate. }
  destruct (boolOption req lsStreamOptionName) eqn:Hstream.
  - destruct (Run_stream_prefix req env api enc Hapi Hargs Henc Hstream) as (k & _ & H).
    exact (H Hok).
  - destruct (Run_batch req env api enc Hapi Hargs Henc Hstream) as (st' & Hrun & Hem & _).
    rewrite Hrun in Hok |- *. cbn [fst snd] in *. fold rc in Hok, Hem.
    destruct (firstError api rc (Arguments req)) eqn:E; [discriminate Hok|].
    split; [now apply firstError_None | exact Hem].
Qed.

(** C8.  Every call of the traversal that [Run] makes, with or without the
    [stream] option, passes as [ResolveChildren] the disjunction of the
    [size] and [resolve-type] options; and a run that returns no error has
    made exactly one such call per requested path, in request order, on the
    path [PathOrCidPath] gives for it.  That setting is the one the
    traversal answers to: a run is the same for any two APIs whose [Ls]
    answers alike when [ResolveChildren] is that disjunction, whatever they
    answer at the other setting; when the emitter accepts every value, the
    run returns the first error of the traversals made with that setting,
    and [nil] when there is none; and a run that returns no error has
    handed to the emitter exactly the entries those traversals gave, one
    value per entry with the option [stream] and one value of sorted
    objects without it. *)
Theorem resolve_children_coupling (req : Request) (env : Environment) :
  let rc := boolOption req lsSizeOptionName || boolOption req lsResolveTypeOptionName in
  Forall (fun c => snd c = rc) (lsCalls (snd (Run req env initial)))
  /\ (fst (Run req env initial) = Ok tt ->
      Forall2 (fun fpath c => PathOrCidPath fpath = inr (fst c) /\ snd c = rc)
        (Arguments req) (lsCalls (snd (Run req env initial))))
  /\ (forall api : CoreAPI,
        GetApi env = inr api ->
        (forall api' : CoreAPI,
           (forall pth, Unixfs_Ls api' pth rc = Unixfs_Ls api pth rc) ->
           Run req {| GetApi := inr api'; ParseBodyArgs := ParseBodyArgs env;
                      GetCidEncoder := GetCidEncoder env |} initial
           = Run req env initial)
        /\ (forall enc : Encoder,
              GetCidEncoder env = inr enc ->
              (ParseBodyArgs env = None ->
               (forall h u, sink h u = None) ->
               fst (Run req env initial) = ended (firstError api rc (Arguments req)))
              /\ (fst (Run req env initial) = Ok tt ->
                  Forall (fun p => snd (traversal api rc p) = None) (Arguments req)
                  /\ emitted (snd (Run req env initial))
                     = if boolOption req lsStreamOptionName
                       then flat_map
                              (fun p => streamUnits enc p (fst (traversal api rc p)))
                              (Arguments req)
                       else [ {| LsOutput.Objects :=
                                   map (sortedGroup api enc rc) (Arguments req) |} ]))).
Proof.
  intros rc. destruct (Run_calls req env) as (cs & <- & Hall & Hok).
  split; [assumption|]. split; [assumption|].
  intros api Hapi. split.
  - intros api' Hsame. now apply (Run_same_feed req env api api').
  - intros enc Henc. split.
    + intros Hargs Hsink. now apply (Run_result req env api enc).
    + intros Hrun. now apply (Run_listed req env api enc).
Qed.

End DriverProperties.

(** ** The claims about a run and its rendering together *)

Section EndToEnd.

Context {imports : Imports} {printing : Printing}.

(** C6 (amended).  Without the [stream] option, a run on a single
    (non-empty) requested path whose traversal yields no entry and no error
    hands the emitter one value holding one object with that path as [Hash]
    and no links.  Rendered, that value prints no label line (a label is
    printed only when more than one path is requested): it prints the
    header row when headers are requested, and nothing otherwise; no entry
    row is printed.  ([slices.SortFunc] is taken with its documented
    behaviour, [SortFunc_contract].) *)
Theorem single_empty_directory (req : Request) (env : Environment)
    (api : CoreAPI) (enc : Encoder) (p : string) :
  SortFunc_contract SortFunc ->
  GetApi env = inr api ->
  ParseBodyArgs env = None ->
  GetCidEncoder env = inr enc ->
  boolOption req lsStreamOptionName = false ->
  Arguments req = [p] ->
  p <> "" ->
  traversal api (boolOption req lsSizeOptionName || boolOption req lsResolveTypeOptionName) p
  = ([], None) ->
  let v := {| LsOutput.Objects := [ {| LsObject.Hash := p; LsObject.Links := [] |} ] |} in
  let header :=
    if boolOption req lsHeadersOptionNameTime
    then (if boolOption req lsSizeOptionName
          then lit "Hash\tSize\tName\n" else lit "Hash\tName\n")
    else "" in
  emitted (snd (Run req env initial)) = [v]
  /\ tabularCells req v "" false = Some (header, p)
  /\ PostRun req [v] None = Some (tabwriter_Flush 1 2 1 " "%char 0 header, None).
Proof.
  intros Hsort Hapi Hparse Henc Hstream Hargs Hp Htr v header.
  assert (Hcells : tabularCells req v "" false = Some (header, p)).
  { rewrite tabularCells_cells. rewrite Hargs. subst v header.
    cbn [LsOutput.Objects unitCells objectCells nextKey LsObject.Hash LsObject.Links
         length Nat.ltb Nat.leb negb andb fst snd rows foldr].
    unfold objectCells, groupHead, headerRow.
    cbn [LsObject.Hash LsObject.Links rows foldr negb andb].
    apply String.eqb_neq in Hp. rewrite Hp. cbn [negb].
    now rewrite ?append_nil_l, ?append_nil_r. }
  repeat split.
  - destruct (Run_batch req env api enc Hapi Hparse Henc Hstream)
      as (st' & Hrun & Hem & _).
    rewrite Hrun. cbn [snd]. rewrite Hem, Hargs.
    cbn [firstError map]. rewrite Htr. cbn [snd].
    unfold sortedGroup. rewrite Htr. cbn [fst map].
    destruct (Hsort byName [] byName_strict_weak) as [Hperm _].
    apply Permutation_nil_r in Hperm. now rewrite Hperm.
  - exact Hcells.
  - unfold PostRun. cbn [PostRun_loop]. unfold tabularOutput.
    rewrite Hcells, Hstream. reflexivity.
Qed.

(** C10.  The text [tabularOutput] writes, and the key it returns, are the
    same for two values that differ at most in the [Mode] and [ModTime] of
    their links, whatever the request, the last key and [ignoreBreaks];
    the same holds for the text encoder.  Both fields are carried by the
    links that [Run] builds, which are what the structured output
    encodes. *)
Theorem mode_and_time_not_rendered (req : Request) (a b : LsOutput.t)
    (prior : string) (ignoreBreaks : bool) :
  sameOutputButModeTime a b ->
  tabularOutput req a prior ignoreBreaks = tabularOutput req b prior ignoreBreaks
  /\ TextEncoder req a = TextEncoder req b
  /\ forall enc e,
       LsLink.Mode (lsLinkOf enc e) = DirEntry.Mode e
       /\ LsLink.ModTime (lsLinkOf enc e) = DirEntry.ModTime e.
Proof.
  intros Hab.
  assert (H : forall k ib, tabularOutput req a k ib = tabularOutput req b k ib).
  { intros k ib. unfold tabularOutput. rewrite !tabularCells_cells.
    now rewrite (unitCells_sameButModeTime _ _ _ _ _ _ Hab). }
  repeat split.
  - apply H.
  - unfold TextEncoder. now rewrite H.
Qed.

End EndToEnd.

(** ** Examples on the concrete setting *)

Lemma batch_emits_one_sorted_value_example :
  Forall (fun p => snd (traversal (imports := Demo.imports) Demo.api true p) = None)
    ["/a"; "/b"; "/e"]
  /\ exists groups : list LsObject.t,
       emitted (snd (Run (imports := Demo.imports)
                       (Demo.request ["/a"; "/b"; "/e"] false false) Demo.env initial))
       = [ {| LsOutput.Objects := groups |} ]
       /\ length groups = 3%nat.
Proof.
  split; [repeat constructor|].
  destruct (batch_emits_one_sorted_value (imports := Demo.imports)
              (Demo.request ["/a"; "/b"; "/e"] false false) Demo.env Demo.api Demo.enc
              Demo_sort_contract eq_refl eq_refl eq_refl)
    as (groups & Hem & _ & Hlen & _).
  - vm_compute. reflexivity.
  - repeat constructor.
  - exists groups. split; [exact Hem | exact Hlen].
Defined.

Lemma stream_emits_one_value_per_entry_example :
  length (emitted (snd (Run (imports := Demo.imports)
                          (Demo.request ["/a"; "/b"; "/e"] false true) Demo.env initial)))
  = 3%nat
  /\ head (emitted (snd (Run (imports := Demo.imports)
                           (Demo.request ["/a"; "/b"; "/e"] false true) Demo.env initial)))
     = Some {| LsOutput.Objects :=
                 [ {| LsObject.Hash := "/a";
                      LsObject.Links := [LsLink.mk "z" "Qmcz" 1 unixfs.TFile "" 420%N 5] |} ] |}.
Proof.
  destruct (stream_emits_one_value_per_entry (imports := Demo.imports)
              (Demo.request ["/a"; "/b"; "/e"] false true) Demo.env Demo.api Demo.enc
              eq_refl eq_refl eq_refl)
    as (_ & Hok & Hsink).
  - vm_compute. reflexivity.
  - repeat constructor.
  - destruct (Hok (Hsink (fun _ _ => eq_refl))) as [Hfull Hlen].
    split; [exact Hlen|]. rewrite Hfull. vm_compute. reflexivity.
Defined.

Lemma first_error_aborts_example :
  (fst (Run (imports := Demo.imports)
          (Demo.request ["/a"; "/x"; "/e"] false false) Demo.env initial)
   = Error "no link named x"
   /\ emitted (snd (Run (imports := Demo.imports)
                      (Demo.request ["/a"; "/x"; "/e"] false false) Demo.env initial))
      = [])
  /\ (fst (Run (imports := Demo.imports)
             (Demo.request ["/a"; "/x"; "/e"] false true) Demo.env initial)
      = Error "no link named x"
      /\ length (emitted (snd (Run (imports := Demo.imports)
                                 (Demo.request ["/a"; "/x"; "/e"] false true)
                                 Demo.env initial)))
         = 3%nat).
Proof.
  split.
  - destruct (proj1 (first_error_aborts (imports := Demo.imports)
                       (Demo.request ["/a"; "/x"; "/e"] false false)
                       Demo.env Demo.api Demo.enc
                       ["/a"] ["/e"] "/x" "no link named x"
                       eq_refl eq_refl eq_refl eq_refl
                       ltac:(repeat constructor) ltac:(vm_compute; reflexivity))
               ltac:(vm_compute; reflexivity))
      as (Hres & Hem & _).
    split; [exact Hres | exact Hem].
  - destruct (proj2 (first_error_aborts (imports := Demo.imports)
                       (Demo.request ["/a"; "/x"; "/e"] false true)
                       Demo.env Demo.api Demo.enc
                       ["/a"] ["/e"] "/x" "no link named x"
                       eq_refl eq_refl eq_refl eq_refl
                       ltac:(repeat constructor) ltac:(vm_compute; reflexivity))
               ltac:(vm_compute; reflexivity) (fun _ _ => eq_refl))
      as (Hres & Hem & _).
    split; [exact Hres|]. rewrite Hem. vm_compute. reflexivity.
Defined.

Lemma kind_classification_example :
  ftypeOf (imports := Demo.imports) 7 = unixfs.TRaw.
Proof.
  refine (proj1 (proj2 (proj2 (proj2
            (kind_classification (imports := Demo.imports) 7 _)))) _).
  - repeat constructor; rewrite ?elem_of_cons, ?elem_of_nil; cbn; intuition discriminate.
  - rewrite !elem_of_cons, elem_of_nil. cbn. intuition discriminate.
Defined.

Lemma single_empty_directory_example :
  tabularCells (printing := Demo.printing) (Demo.request ["/e"] true false)
    {| LsOutput.Objects := [ {| LsObject.Hash := "/e"; LsObject.Links := [] |} ] |}
    "" false
  = Some (lit "Hash\tSize\tName\n", "/e").
Proof.
  refine (proj1 (proj2
            (single_empty_directory (imports := Demo.imports) (printing := Demo.printing)
               (Demo.request ["/e"] true false) Demo.env Demo.api Demo.enc "/e"
               Demo_sort_contract eq_refl eq_refl eq_refl _ eq_refl _ _))).
  - vm_compute. reflexivity.
  - discriminate.
  - vm_compute. reflexivity.
Defined.

Lemma mode_and_time_not_rendered_example :
  tabularOutput (printing := Demo.printing) (Demo.request ["/a"] true false)
    {| LsOutput.Objects := [ {| LsObject.Hash := "/a"; LsObject.Links := [Demo.fileZ] |} ] |}
    "" false
  = tabularOutput (printing := Demo.printing) (Demo.request ["/a"] true false)
      {| LsOutput.Objects := [ {| LsObject.Hash := "/a"; LsObject.Links := [Demo.fileZ'] |} ] |}
      "" false.
Proof.
  refine (proj1
            (mode_and_time_not_rendered (imports := Demo.imports) (printing := Demo.printing)
               (Demo.request ["/a"] true false) _ _ "" false _)).
  repeat constructor.
Defined.

(** With [size] set and [resolve-type] cleared, an API that resolves the
    children only on demand is asked to: the link listed carries the size
    and the type of the child. *)
Lemma resolve_children_coupling_example :
  lsCalls (snd (Run (imports := Demo.imports) (DemoMore.sizeOnly ["/b"] true)
                  DemoMore.lazyEnv initial))
  = [("/ipfs/b", true)]
  /\ emitted (snd (Run (imports := Demo.imports) (DemoMore.sizeOnly ["/b"] true)
                     DemoMore.lazyEnv initial))
     = [ {| LsOutput.Objects :=
              [ {| LsObject.Hash := "/b"; LsObject.Links := [DemoMore.dirM] |} ] |} ].
Proof.
  pose proof (resolve_children_coupling (imports := Demo.imports)
                (DemoMore.sizeOnly ["/b"] true) DemoMore.lazyEnv) as H.
  cbv zeta in H. destruct H as (_ & _ & Hdata).
  destruct (Hdata DemoMore.lazyApi eq_refl) as (_ & Hlisted).
  destruct (Hlisted Demo.enc eq_refl) as (_ & Hok).
  destruct (Hok ltac:(vm_compute; reflexivity)) as (_ & Hem).
  split; [vm_compute; reflexivity|].
  rewrite Hem. vm_compute. reflexivity.
Defined.

(** C4, as stated, fails on a link of type [TMetadata]: not one of the
    specification's directory-like kinds, yet printed with [-] as its size
    and [/] after its name, where the claim has the row [Qm 7 meta]. *)
Lemma metadata_row_has_slash :
  spec_directoryLike (LsLink.Type_ Demo.metaM) = false
  /\ writeLink (printing := Demo.printing) true "" Demo.metaM
     = Some (lit "Qm\t-\tmeta/\n")
  /\ writeLink (printing := Demo.printing) true "" Demo.metaM
     <> Some (lit "Qm\t7\tmeta\n").
Proof. vm_compute. repeat split; discriminate. Qed.

(** C5, as stated, fails when [ignoreBreaks] is true, as it is for the text
    encoder of a streaming request: with two requested paths and headers
    requested, the value of a first group is printed as its row alone,
    without label line and without header row. *)
Lemma ignored_breaks_print_no_label :
  TextEncoder (printing := Demo.printing) (Demo.request ["/a"; "/b"] true true)
    {| LsOutput.Objects := [ {| LsObject.Hash := "/a"; LsObject.Links := [Demo.fileZ] |} ] |}
  = Some (lit "Qmcz\t1\tz\n")
  /\ tabularCells (printing := Demo.printing) (Demo.request ["/a"; "/b"] true true)
       {| LsOutput.Objects := [ {| LsObject.Hash := "/a"; LsObject.Links := [Demo.fileZ] |} ] |}
       "" true
     <> Some (lit "/a:\nHash\tSize\tName\nQmcz\t1\tz\n", "/a").
Proof. vm_compute. split; [reflexivity | discriminate]. Qed.

(** C6, as stated, fails: the rendering of the single value of a run on one
    requested path with no entries holds the header row and no label
    line. *)
Lemma single_path_has_no_label :
  emitted (snd (Run (imports := Demo.imports)
                  (Demo.request ["/e"] true false) Demo.env initial))
  = [ {| LsOutput.Objects := [ {| LsObject.Hash := "/e"; LsObject.Links := [] |} ] |} ]
  /\ PostRun (printing := Demo.printing) (Demo.request ["/e"] true false)
       [ {| LsOutput.Objects := [ {| LsObject.Hash := "/e"; LsObject.Links := [] |} ] |} ]
       None
     = Some (lit "Hash\tSize\tName\n", None)
  /\ PostRun (printing := Demo.printing) (Demo.request ["/e"] true false)
       [ {| LsOutput.Objects := [ {| LsObject.Hash := "/e"; LsObject.Links := [] |} ] |} ]
       None
     <> Some (lit "/e:\nHash\tSize\tName\n", None).
Proof. vm_compute. repeat split; discriminate. Qed.

(** C9, as stated, fails when [ignoreBreaks] is true: the value holds the
    group [/a], yet the key returned is the prior one (here the empty
    string). *)
Lemma ignored_breaks_keep_prior_key :
  snd <$> tabularOutput (printing := Demo.printing) (Demo.request ["/a"; "/b"] false true)
            {| LsOutput.Objects :=
                 [ {| LsObject.Hash := "/a"; LsObject.Links := [Demo.fileZ] |} ] |}
            "" true
  = Some ""
  /\ snd <$> tabularOutput (printing := Demo.printing) (Demo.request ["/a"; "/b"] false true)
               {| LsOutput.Objects :=
                    [ {| LsObject.Hash := "/a"; LsObject.Links := [Demo.fileZ] |} ] |}
               "" true
     <> Some "/a".
Proof. vm_compute. split; [reflexivity | discriminate]. Qed.

(** The scenario of two requested paths, run without the [stream] option
    and printed by [PostRun] with headers and sizes: each group under its
    label and header, an empty line between the groups, the links of [/a]
    in ascending order of name. *)
Example two_paths_listed_and_printed :
  PostRun (printing := Demo.printing) (Demo.request ["/a"; "/b"] true false)
    (emitted (snd (Run (imports := Demo.imports)
                     (Demo.request ["/a"; "/b"] true false) Demo.env initial)))
    None
  = Some (lit "/a:\nHash\tSize\tName\nQmcb\t-\tb/\nQmcz\t1\tz\n\n/b:\nHash\tSize\tName\nQmcm\t-\tm/\n",
          None).
Proof. vm_compute. reflexivity. Qed.

(** * Further properties *)

(** ** The emitter's answers *)

Section EmitterFacts.
Context {imports : Imports}.

Lemma accepted_nil : accepted [].
Proof. intros i v H. destruct i; discriminate H. Qed.

Lemma accepted_snoc l v : accepted l -> sink l v = None -> accepted (l ++ [v]).
Proof.
  intros Hl Hv i w Hi.
  destruct (Nat.lt_ge_cases i (length l)) as [Hlt|Hge].
  - rewrite lookup_app_l in Hi by exact Hlt.
    rewrite take_app_le by lia. now apply Hl.
  - rewrite lookup_app_r in Hi by exact Hge.
    destruct (i - length l)%nat as [|n] eqn:E; [|destruct n; discriminate Hi].
    injection Hi as <-. replace i with (length l) by lia.
    rewrite take_app_length. exact Hv.
Qed.

Lemma accepted_not_rejected l v e : sink l v = Some e -> ~ accepted (l ++ [v]).
Proof.
  intros Hv Hacc. specialize (Hacc (length l) v).
  rewrite take_app_length in Hacc. rewrite Hv in Hacc.
  discriminate Hacc. now apply list_lookup_middle.
Qed.

Lemma emitterPost_ok log : emitterPost (Ok tt) log -> accepted log.
Proof. intros [_ [H|(l & v & e & _ & _ & _ & H)]]; [exact H | discriminate H]. Qed.

Lemma forLinks_stream_post enc paths i p results :
  paths !! i = Some p ->
  forall st,
    accepted (emitted st) ->
    emitterPost (fst (forLinks enc stream_processLink paths i results st))
      (emitted (snd (forLinks enc stream_processLink paths i results st))).
Proof.
  intros Hp. induction results as [|link results IH]; intros st Hacc.
  - cbn. split; [discriminate | now left].
  - remember (forLinks enc stream_processLink paths i (link :: results) st) as r eqn:Hr.
    cbn [forLinks] in Hr. unfold bind at 1 in Hr. unfold index in Hr. rewrite Hp in Hr.
    unfold bind at 1 in Hr.
    destruct (stream_processLink p (lsLinkOf enc link) st) as [res st1] eqn:E.
    unfold stream_processLink, Emit in E.
    destruct (sink (emitted st) _) as [e|] eqn:Hs; injection E as <- <-.
    + subst r. cbn [fst snd emitted]. split; [discriminate|]. right.
      eexists _, _, e. repeat split; [exact Hacc | exact Hs].
    + subst r. apply IH. cbn [emitted]. now apply accepted_snoc.
Qed.

Lemma forPath_stream_post api enc resolveType resolveSize paths i fpath st :
  paths !! i = Some fpath ->
  accepted (emitted st) ->
  emitterPost
    (fst (forPath api enc resolveType resolveSize processDir_stream paths i fpath st))
    (emitted (snd (forPath api enc resolveType resolveSize processDir_stream paths i fpath st))).
Proof.
  intros Hp Hacc.
  remember (forPath api enc resolveType resolveSize processDir_stream paths i fpath st)
    as r eqn:Hr.
  unfold forPath in Hr.
  unfold bind at 1 in Hr. unfold try in Hr.
  destruct (PathOrCidPath fpath) as [e|pth].
  { subst r. cbn. split; [discriminate | now left]. }
  unfold bind at 1 in Hr. unfold goLs at 1 in Hr.
  unfold bind at 1 in Hr. unfold processDir_stream, ret at 1 in Hr.
  unfold bind at 1 in Hr. cbn [processLink dirDone] in Hr.
  match type of Hr with context [forLinks _ _ _ _ ?es ?s] =>
    pose proof (forLinks_stream_post enc paths i fpath es Hp s Hacc) as Hpost end.
  destruct (forLinks enc stream_processLink paths i _ _) as [[[]|e|] st1];
    cbn [fst snd] in *.
  - apply emitterPost_ok in Hpost.
    destruct (Unixfs_Ls api pth (resolveSize || resolveType)) as [es [e|]];
      subst r; cbn [fst snd check bind stream_dirDone ret emitted] in *;
      (split; [discriminate | now left]).
  - subst r. exact Hpost.
  - subst r. exact Hpost.
Qed.

Lemma forPaths_stream_post api enc resolveType resolveSize paths :
  forall rest done_ st,
    paths = done_ ++ rest ->
    accepted (emitted st) ->
    emitterPost
      (fst (forPaths api enc resolveType resolveSize processDir_stream paths
              (length done_) rest st))
      (emitted (snd (forPaths api enc resolveType resolveSize processDir_stream paths
                       (length done_) rest st))).
Proof.
  intros rest. induction rest as [|fpath rest IH]; intros done_ st Hpaths Hacc.
  - cbn. split; [discriminate | now left].
  - assert (Hp : paths !! length done_ = Some fpath)
      by (subst paths; now apply list_lookup_middle).
    pose proof (forPath_stream_post api enc resolveType resolveSize paths _ fpath st Hp Hacc)
      as Hpost.
    remember (forPaths api enc resolveType resolveSize processDir_stream paths
                (length done_) (fpath :: rest) st) as r eqn:Hr.
    cbn [forPaths] in Hr. unfold bind in Hr.
    destruct (forPath api enc resolveType resolveSize processDir_stream paths
                (length done_) fpath st) as [[[]|e|] st1]; subst r; cbn [fst snd] in *.
    + apply emitterPost_ok in Hpost.
      replace (S (length done_)) with (length (done_ ++ [fpath]))
        by (rewrite length_app; cbn; lia).
      apply IH; [subst paths; now rewrite <- app_assoc | exact Hpost].
    + exact Hpost.
    + exact Hpost.
Qed.

Lemma Run_stream_post req env api enc :
  GetApi env = inr api ->
  ParseBodyArgs env = None ->
  GetCidEncoder env = inr enc ->
  boolOption req lsStreamOptionName = true ->
  emitterPost (fst (Run req env initial)) (emitted (snd (Run req env initial))).
Proof.
  intros Hapi Hparse Henc Hstream.
  remember (Run req env initial) as r eqn:Hr. unfold Run in Hr.
  rewrite Hapi, Hparse, Henc, Hstream in Hr. cbn [negb] in Hr.
  unfold bind at 1 in Hr. unfold try at 1 in Hr.
  unfold bind at 1 in Hr. unfold check at 1 in Hr.
  unfold bind at 1 in Hr. unfold try at 1 in Hr.
  unfold bind at 1 in Hr. unfold ret at 1 in Hr.
  unfold bind at 1 in Hr. cbn [fst snd] in Hr.
  pose proof (forPaths_stream_post api enc (boolOption req lsResolveTypeOptionName)
                (boolOption req lsSizeOptionName) (Arguments req) (Arguments req) [] initial
                eq_refl accepted_nil) as Hpost.
  cbn [length] in Hpost.
  destruct (forPaths _ _ _ _ _ _ _ _ _) as [[[]|e|] st1]; subst r; cbn [fst snd ret] in *;
    exact Hpost.
Qed.


Lemma Run_post req env :
  emitterPost (fst (Run req env initial)) (emitted (snd (Run req env initial))).
Proof.
  destruct (GetApi env) as [e|api] eqn:Hapi.
  { unfold Run. rewrite Hapi. cbn. split; [discriminate | left; apply accepted_nil]. }
  destruct (ParseBodyArgs env) as [e|] eqn:Hparse.
  { unfold Run. rewrite Hapi, Hparse. cbn.
    split; [discriminate | left; apply accepted_nil]. }
  destruct (GetCidEncoder env) as [e|enc] eqn:Henc.
  { unfold Run. rewrite Hapi, Hparse, Henc. cbn.
    split; [discriminate | left; apply accepted_nil]. }
  destruct (boolOption req lsStreamOptionName) eqn:Hstream.
  - now apply (Run_stream_post req env api enc).
  - destruct (Run_batch req env api enc Hapi Hparse Henc Hstream)
      as (st' & Hrun & Hem & _).
    rewrite Hrun. cbn [fst snd]. rewrite Hem.
    destruct (firstError api _ (Arguments req)) as [e|].
    { split; [discriminate | left; apply accepted_nil]. }
    match goal with |- context [sink [] ?v] => destruct (sink [] v) as [e|] eqn:Hs end;
      cbn [ended]; (split; [discriminate|]).
    + right. eexists [], _, e. repeat split; [apply accepted_nil | exact Hs].
    + left. apply (accepted_snoc [] _ accepted_nil Hs).
Qed.

(** X1.  Whatever the request, the environment, the traversals and the
    emitter, [Run] ends by returning [nil] or an error: no index of [paths]
    or [output] it uses is out of range. *)
Theorem run_never_panics (req : Request) (env : Environment) :
  fst (Run req env initial) = Ok tt
  \/ exists e, fst (Run req env initial) = Error e.
Proof.
  destruct (Run_post req env) as [Hnp _].
  destruct (fst (Run req env initial)) as [[]|e|]; [now left | right; eauto | congruence].
Qed.

(** X2.  A value that the emitter rejects is the last value [Run] hands to
    it, and the emitter's error for it is what [Run] returns; this holds
    with and without the [stream] option. *)
Theorem rejected_value_ends_run (req : Request) (env : Environment)
    (i : nat) (v : LsOutput.t) (e : Err) :
  emitted (snd (Run req env initial)) !! i = Some v ->
  sink (take i (emitted (snd (Run req env initial)))) v = Some e ->
  S i = length (emitted (snd (Run req env initial)))
  /\ fst (Run req env initial) = Error e.
Proof.
  intros Hi Hs. destruct (Run_post req env) as [_ [Hacc|(l & w & e' & Hl & Hacc & Hw & Hr)]].
  - rewrite (Hacc i v Hi) in Hs. discriminate Hs.
  - rewrite Hl in Hi, Hs |- *. rewrite length_app. cbn [length].
    destruct (Nat.lt_ge_cases i (length l)) as [Hlt|Hge].
    + rewrite lookup_app_l in Hi by exact Hlt. rewrite take_app_le in Hs by lia.
      rewrite (Hacc i v Hi) in Hs. discriminate Hs.
    + rewrite lookup_app_r in Hi by exact Hge.
      destruct (i - length l)%nat as [|n] eqn:E; [|destruct n; discriminate Hi].
      injection Hi as <-. assert (i = length l) as -> by lia.
      rewrite take_app_length in Hs. rewrite Hw in Hs. injection Hs as <-.
      split; [lia | exact Hr].
Qed.

(** X3.  Without the [stream] option the output is all or nothing: either
    the traversal of every requested path ended without error and exactly
    one value was handed to the emitter, whose objects carry the requested
    paths in request order; or [Run] returns the first traversal error and
    nothing was handed to the emitter. *)
Theorem batch_all_or_nothing (req : Request) (env : Environment)
    (api : CoreAPI) (enc : Encoder) :
  GetApi env = inr api ->
  ParseBodyArgs env = None ->
  GetCidEncoder env = inr enc ->
  boolOption req lsStreamOptionName = false ->
  let rc := boolOption req lsSizeOptionName || boolOption req lsResolveTypeOptionName in
  (Forall (fun p => snd (traversal api rc p) = None) (Arguments req)
   /\ exists v, emitted (snd (Run req env initial)) = [v]
               /\ map LsObject.Hash (LsOutput.Objects v) = Arguments req)
  \/ (exists e, firstError api rc (Arguments req) = Some e
               /\ fst (Run req env initial) = Error e
               /\ emitted (snd (Run req env initial)) = []).
Proof.
  intros Hapi Hparse Henc Hstream rc.
  destruct (Run_batch req env api enc Hapi Hparse Henc Hstream)
    as (st' & Hrun & Hem & _).
  fold rc in Hrun, Hem. rewrite Hrun. cbn [fst snd]. rewrite Hem.
  destruct (firstError api rc (Arguments req)) as [e|] eqn:HfE.
  - right. exists e. auto.
  - left. split; [now apply firstError_None|]. eexists. split; [reflexivity|].
    cbn [LsOutput.Objects]. rewrite map_map. cbn. apply map_id.
Qed.

End EmitterFacts.

(** ** More on the renderer *)

Section MoreRendererFacts.
Context {printing : Printing}.

Lemma rows_app size l1 l2 : rows size (l1 ++ l2) = rows size l1 +:+ rows size l2.
Proof.
  induction l1 as [|a l1 IH]; [reflexivity|].
  cbn [app rows foldr]. fold (rows size (l1 ++ l2)). fold (rows size l1).
  now rewrite IH, append_assoc.
Qed.

Lemma unitCells_merge headers size multipleFolders ignoreBreaks prior p l1 l2 rest :
  unitCells headers size multipleFolders ignoreBreaks prior
    ({| LsObject.Hash := p; LsObject.Links := l1 |}
     :: {| LsObject.Hash := p; LsObject.Links := l2 |} :: rest)
  = unitCells headers size multipleFolders ignoreBreaks prior
      ({| LsObject.Hash := p; LsObject.Links := l1 ++ l2 |} :: rest).
Proof.
  cbn [unitCells]. unfold objectCells, nextKey. cbn [LsObject.Hash LsObject.Links fst snd].
  rewrite rows_app.
  destruct ignoreBreaks; cbn [negb andb].
  - now rewrite !append_nil_l, !append_assoc.
  - rewrite String.eqb_refl. cbn [negb]. now rewrite !append_nil_l, !append_assoc.
Qed.

Lemma unitCells_stream headers size multipleFolders ignoreBreaks prior p (links : list LsLink.t) :
  forall l0,
    unitCells headers size multipleFolders ignoreBreaks prior
      ({| LsObject.Hash := p; LsObject.Links := l0 |}
       :: map (fun l => {| LsObject.Hash := p; LsObject.Links := [l] |}) links)
    = unitCells headers size multipleFolders ignoreBreaks prior
        [ {| LsObject.Hash := p; LsObject.Links := l0 ++ links |} ].
Proof.
  induction links as [|l links IH]; intros l0.
  - cbn [map]. now rewrite app_nil_r.
  - cbn [map]. rewrite unitCells_merge, IH. now rewrite <- app_assoc.
Qed.

(** X10.  Printing the values of a streamed directory one by one, passing
    the returned key on, writes to the tabwriters the bytes that one value
    holding all its links in one object writes, and ends with the same
    key: the label and the header appear once, before the first row. *)
Theorem streamed_directory_prints_as_one_group `{imports : Imports}
    (req : Request) (enc : Encoder) (p : string) (es : list DirEntry.t)
    (prior : string) (ignoreBreaks : bool) :
  es <> [] ->
  (fun r => (joinText (fst r), snd r))
    <$> threadCells req ignoreBreaks (streamUnits enc p es) prior
  = tabularCells req
      {| LsOutput.Objects :=
           [ {| LsObject.Hash := p; LsObject.Links := map (lsLinkOf enc) es |} ] |}
      prior ignoreBreaks.
Proof.
  intros Hes.
  destruct (threadCells_cells req ignoreBreaks (streamUnits enc p es) prior)
    as (tws & -> & Hjoin).
  rewrite tabularCells_cells. cbn [fmap option_fmap option_map fst snd LsOutput.Objects].
  rewrite Hjoin.
  assert (E : LsOutput.Objects (joined (streamUnits enc p es))
              = map (fun l => {| LsObject.Hash := p; LsObject.Links := [l] |})
                  (map (lsLinkOf enc) es)).
  { unfold joined, streamUnits. cbn [LsOutput.Objects]. clear.
    induction es as [|e es IH]; [reflexivity|]. cbn. f_equal. exact IH. }
  rewrite E. destruct es as [|e es]; [congruence|]. cbn [map].
  rewrite (unitCells_stream _ _ _ _ _ _ (map (lsLinkOf enc) es) [lsLinkOf enc e]).
  cbn [app]. now destruct (unitCells _ _ _ _ _ _).
Qed.

Lemma keysChange_tail o os : keysChange (o :: os) -> keysChange os.
Proof. intros H i a b Ha Hb. exact (H (S i) a b Ha Hb). Qed.

Lemma unitCells_labelled headers size os : forall o,
  LsObject.Hash o <> "" ->
  Forall (fun x => LsObject.Hash x <> "") os ->
  keysChange (o :: os) ->
  unitCells headers size true false (LsObject.Hash o) os
  = (joinText
       (map (fun x => lit "\n" +:+ LsObject.Hash x +:+ lit ":\n"
                      +:+ headerRow headers size
                      +:+ rows size (LsObject.Links x)) os),
     default (LsObject.Hash o) (LsObject.Hash <$> last os)).
Proof.
  induction os as [|x os IH]; intros o Ho Hall Hch; [reflexivity|].
  apply Forall_cons in Hall as [Hx Hall].
  assert (Hne : LsObject.Hash x <> LsObject.Hash o).
  { intros E. exact (Hch 0%nat o x eq_refl eq_refl (eq_sym E)). }
  cbn [unitCells map]. unfold nextKey.
  rewrite (IH x Hx Hall (keysChange_tail _ _ Hch)).
  cbn [fst snd joinText foldr].
  unfold objectCells, groupHead. cbn [negb andb].
  apply String.eqb_neq in Hne. rewrite Hne. cbn [negb].
  apply String.eqb_neq in Ho. rewrite Ho.
  f_equal.
  - now rewrite !append_assoc.
  - destruct os as [|y os]; [reflexivity|]. rewrite last_cons_cons.
    destruct (last (y :: os)) eqn:E; [reflexivity|].
    apply last_None in E. discriminate E.
Qed.

(** X11.  When more than one path is requested, a value whose objects have
    non-empty keys that change from each object to the next is printed,
    from the empty last key, as the groups one after the other: each group
    is its label line, the header row when requested, then its rows; the
    first group starts the text and every later one follows exactly one
    empty line.  The key returned is that of the last object. *)
Theorem groups_separated_by_one_empty_line (req : Request)
    (o : LsObject.t) (os : list LsObject.t) :
  (1 < length (Arguments req))%nat ->
  Forall (fun x => LsObject.Hash x <> "") (o :: os) ->
  keysChange (o :: os) ->
  let group := fun x : LsObject.t =>
    LsObject.Hash x +:+ lit ":\n"
    +:+ headerRow (boolOption req lsHeadersOptionNameTime) (boolOption req lsSizeOptionName)
    +:+ rows (boolOption req lsSizeOptionName) (LsObject.Links x) in
  tabularCells req {| LsOutput.Objects := o :: os |} "" false
  = Some (group o +:+ joinText (map (fun x => lit "\n" +:+ group x) os),
          default (LsObject.Hash o) (LsObject.Hash <$> last os)).
Proof.
  intros Hargs Hall Hch group. apply Forall_cons in Hall as [Ho Hall].
  rewrite tabularCells_cells. apply Nat.ltb_lt in Hargs. rewrite Hargs.
  cbn [LsOutput.Objects unitCells]. unfold nextKey.
  rewrite (unitCells_labelled _ _ os o Ho Hall Hch). cbn [fst snd].
  unfold objectCells, groupHead. cbn [negb andb].
  apply String.eqb_neq in Ho. rewrite Ho. cbn [negb String.eqb].
  f_equal. f_equal. subst group. cbn beta.
  rewrite !append_nil_l, !append_assoc. reflexivity.
Qed.

Lemma completeLines_nil : completeLines "".
Proof. now left. Qed.

Lemma completeLines_app a b : completeLines a -> completeLines b -> completeLines (a +:+ b).
Proof.
  intros Ha [->|(t & ->)].
  - now rewrite append_nil_r.
  - right. exists (a +:+ t). now rewrite append_assoc.
Qed.

Lemma completeLines_line t : completeLines (t +:+ lit "\n").
Proof. right. now exists t. Qed.

Lemma completeLines_row size link : completeLines (row size link).
Proof.
  unfold row, slashRow, plainRow.
  destruct (slashKind _); right.
  - exists (LsLink.Hash link +:+ (if size then lit "\t-" else "")
            +:+ lit "\t" +:+ EscNonPrint (LsLink.Name link) +:+ "/").
    rewrite !append_assoc. reflexivity.
  - exists (LsLink.Hash link
            +:+ (if size then lit "\t" +:+ decimal (LsLink.Size link) else "")
            +:+ lit "\t" +:+ EscNonPrint (LsLink.Name link)).
    rewrite !append_assoc. reflexivity.
Qed.

Lemma completeLines_rows size links : completeLines (rows size links).
Proof.
  induction links as [|l links IH]; [apply completeLines_nil|].
  cbn [rows foldr]. fold (rows size links).
  apply completeLines_app; [apply completeLines_row | exact IH].
Qed.

Lemma completeLines_headerRow headers size : completeLines (headerRow headers size).
Proof.
  unfold headerRow. destruct headers; [|apply completeLines_nil].
  destruct size; right; [exists (lit "Hash\tSize\tName") | exists (lit "Hash\tName")];
    vm_compute; reflexivity.
Qed.

Lemma completeLines_groupHead headers size multipleFolders prior key :
  completeLines (groupHead headers size multipleFolders prior key).
Proof.
  unfold groupHead. apply completeLines_app; [|apply completeLines_headerRow].
  destruct multipleFolders; [|apply completeLines_nil].
  right. exists ((if String.eqb prior "" then "" else lit "\n") +:+ key +:+ ":").
  rewrite !append_assoc. reflexivity.
Qed.

Lemma completeLines_unitCells headers size multipleFolders ignoreBreaks os : forall prior,
  completeLines (fst (unitCells headers size multipleFolders ignoreBreaks prior os)).
Proof.
  induction os as [|o os IH]; intros prior; [apply completeLines_nil|].
  cbn [unitCells fst]. apply completeLines_app; [|apply IH].
  unfold objectCells. apply completeLines_app; [|apply completeLines_rows].
  destruct (_ && _); [apply completeLines_groupHead | apply completeLines_nil].
Qed.

(** X12.  Whatever the value, the last key and the options, [tabularOutput]
    writes to its tabwriter only complete lines: nothing, or bytes that end
    in a newline; no row is left open when the writer is flushed. *)
Theorem tabwriter_gets_complete_lines (req : Request) (out : LsOutput.t)
    (prior : string) (ignoreBreaks : bool) :
  exists tw k,
    tabularCells req out prior ignoreBreaks = Some (tw, k)
    /\ (tw = "" \/ exists t, tw = t +:+ lit "\n").
Proof.
  rewrite tabularCells_cells.
  destruct (unitCells _ _ _ _ _ _) as [tw k] eqn:E.
  exists tw, k. split; [reflexivity|].
  change tw with (fst (tw, k)). rewrite <- E. apply completeLines_unitCells.
Qed.

(** X13.  A row shows of a link only its [Hash], its escaped [Name], whether
    its type is one of those printed with [/], and, for the other types
    when the [size] option is set, its [Size]: links that agree on these
    are printed alike, whatever their [Target], [Mode], [ModTime] and
    exact type. *)
Theorem row_shows_hash_name_size_only (size : bool) (tw : string) (a b : LsLink.t) :
  LsLink.Hash a = LsLink.Hash b ->
  LsLink.Name a = LsLink.Name b ->
  slashKind (LsLink.Type_ a) = slashKind (LsLink.Type_ b) ->
  (size = true -> slashKind (LsLink.Type_ a) = false -> LsLink.Size a = LsLink.Size b) ->
  writeLink size tw a = writeLink size tw b.
Proof.
  intros HH HN HK HS. rewrite !writeLink_row. f_equal. f_equal.
  unfold row, slashRow, plainRow. rewrite <- HK, <- HH, <- HN.
  destruct (slashKind (LsLink.Type_ a)); [reflexivity|].
  destruct size; [now rewrite HS | reflexivity].
Qed.

Lemma PostRun_loop_snoc req vs v final : forall stdout prior,
  PostRun_loop req (vs ++ [v]) final stdout prior
  = '(tws, k) ← threadCells req false vs prior;
    '(t, _) ← tabularOutput req v k false;
    Some (stdout
          +:+ joinText (tabwriter_Flush (if boolOption req lsStreamOptionName
                                         then 10%nat else 1%nat) 2 1 " "%char 0 <$> tws)
          +:+ t,
          final).
Proof.
  induction vs as [|out vs IH]; intros stdout prior; cbn [app PostRun_loop threadCells].
  - cbn [mbind option_bind fmap list_fmap joinText foldr].
    destruct (tabularOutput req v prior false) as [[t k]|]; [|reflexivity].
    cbn [mbind option_bind PostRun_loop]. now rewrite append_nil_l.
  - unfold tabularOutput at 1.
    destruct (tabularCells req out prior false) as [[tw k]|]; [|reflexivity].
    cbn [mbind option_bind]. rewrite IH.
    destruct (threadCells req false vs k) as [[tws k']|]; [|reflexivity].
    cbn [mbind option_bind].
    destruct (tabularOutput req v k' false) as [[t k'']|]; [|reflexivity].
    cbn [mbind option_bind fmap list_fmap joinText foldr].
    now rewrite !append_assoc.
Qed.

(** X14.  [PostRun] prints each value as it arrives, after what it has
    printed for the values before: the text [tabularOutput] writes for it
    when called without [ignoreBreaks] and with, as [lastObjectHash], the
    [Hash] of the last object received so far (the empty string when there
    is none).  Nothing is printed for a response without values, and what
    has been printed does not depend on how the response ends; [PostRun]
    then returns what ends the response, [nil] for [io.EOF]. *)
Theorem PostRun_prints_each_value_as_it_arrives (req : Request)
    (vs : list LsOutput.t) (v : LsOutput.t) (final : option Err) :
  PostRun req [] final = Some ("", final)
  /\ exists text t k,
       (forall final' : option Err, PostRun req vs final' = Some (text, final'))
       /\ tabularOutput req v
            (default "" (LsObject.Hash <$> last (LsOutput.Objects (joined vs)))) false
          = Some (t, k)
       /\ PostRun req (vs ++ [v]) final = Some (text +:+ t, final).
Proof.
  split; [reflexivity|].
  destruct (threadCells_cells req false vs "") as (tws & Hcells & _).
  rewrite unitCells_key in Hcells.
  set (key := default "" (LsObject.Hash <$> last (LsOutput.Objects (joined vs)))) in *.
  destruct (tabularOutput req v key false) as [[t k]|] eqn:Hv.
  - eexists _, t, k. split; [|split; [reflexivity|]].
    + intros final'. unfold PostRun. rewrite PostRun_loop_thread, Hcells.
      cbn [fmap option_fmap option_map fst]. rewrite append_nil_l. reflexivity.
    + unfold PostRun. rewrite PostRun_loop_snoc, Hcells.
      cbn [mbind option_bind]. rewrite Hv. cbn [mbind option_bind].
      now rewrite append_nil_l.
  - exfalso. revert Hv. unfold tabularOutput. rewrite tabularCells_cells.
    destruct (unitCells _ _ _ _ _ _). discriminate.
Qed.

(** X15.  Without the [stream] option, the text encoder and [PostRun] print
    the same text for a response of one value. *)
Theorem text_encoder_agrees_with_PostRun (req : Request) (v : LsOutput.t)
    (final : option Err) :
  boolOption req lsStreamOptionName = false ->
  PostRun req [v] final = (fun text => (text, final)) <$> TextEncoder req v.
Proof.
  intros Hstream. unfold PostRun, TextEncoder. cbn [PostRun_loop]. rewrite Hstream.
  destruct (tabularOutput req v "" false) as [[text k]|]; reflexivity.
Qed.

End MoreRendererFacts.

(** ** More on the driver *)

Lemma nameLe_antisym a b : nameLe a b -> nameLe b a -> LsLink.Name a = LsLink.Name b.
Proof.
  unfold nameLe. rewrite !strings_Compare_le.
  rewrite (String.compare_antisym (LsLink.Name a) (LsLink.Name b)).
  destruct (String.compare (LsLink.Name b) (LsLink.Name a)) eqn:E; cbn;
    intros H1 H2; try congruence.
  symmetry. now apply String.compare_eq_iff.
Qed.

Lemma nameLe_refl a : nameLe a a.
Proof.
  unfold nameLe. rewrite strings_Compare_le.
  pose proof (String.compare_antisym (LsLink.Name a) (LsLink.Name a)) as H.
  destruct (String.compare (LsLink.Name a) (LsLink.Name a)); cbn in H; congruence.
Qed.

Lemma same_name_same_link (l : list LsLink.t) a b :
  NoDup (map LsLink.Name l) -> a ∈ l -> b ∈ l -> LsLink.Name a = LsLink.Name b -> a = b.
Proof.
  induction l as [|x l IH]; intros Hnd Ha Hb E; [now apply elem_of_nil in Ha|].
  cbn [map] in Hnd. apply NoDup_cons in Hnd as [Hx Hnd].
  apply elem_of_cons in Ha as [->|Ha]; apply elem_of_cons in Hb as [->|Hb].
  - reflexivity.
  - exfalso. apply Hx. rewrite E. now apply (list_elem_of_fmap_2 LsLink.Name).
  - exfalso. apply Hx. rewrite <- E. now apply (list_elem_of_fmap_2 LsLink.Name).
  - now apply IH.
Qed.

Lemma sorted_by_name_unique (l1 : list LsLink.t) : forall l2,
  StronglySorted nameLe l1 -> StronglySorted nameLe l2 -> l1 ≡ₚ l2 ->
  NoDup (map LsLink.Name l1) -> l1 = l2.
Proof.
  induction l1 as [|a l1 IH]; intros l2 H1 H2 Hp Hnd.
  - symmetry in Hp. apply Permutation_nil_r in Hp. now subst l2.
  - destruct l2 as [|b l2]; [now apply Permutation_nil_r in Hp|].
    apply StronglySorted_inv in H1 as [H1 Ha]. apply StronglySorted_inv in H2 as [H2 Hb].
    assert (Hba : b ∈ a :: l1) by (rewrite Hp; apply list_elem_of_here).
    assert (Hab : a ∈ b :: l2) by (rewrite <- Hp; apply list_elem_of_here).
    assert (E : a = b).
    { apply (same_name_same_link (a :: l1)); [exact Hnd | apply list_elem_of_here | exact Hba |].
      apply nameLe_antisym.
      - apply elem_of_cons in Hba as [->|Hba]; [apply nameLe_refl|].
        rewrite Forall_forall in Ha. now apply Ha.
      - apply elem_of_cons in Hab as [->|Hab]; [apply nameLe_refl|].
        rewrite Forall_forall in Hb. now apply Hb. }
    subst b. f_equal. apply IH; [exact H1 | exact H2 | |].
    + now apply Permutation_cons_inv in Hp.
    + cbn [map] in Hnd. now apply NoDup_cons in Hnd as [_ Hnd].
Qed.

Section MoreDriverFacts.
Context {imports : Imports}.

Lemma sortedGroup_sorted api enc rc p :
  SortFunc_contract SortFunc ->
  LsObject.Links (sortedGroup api enc rc p) ≡ₚ map (lsLinkOf enc) (fst (traversal api rc p))
  /\ StronglySorted nameLe (LsObject.Links (sortedGroup api enc rc p)).
Proof.
  intros Hsort.
  destruct (Hsort byName (map (lsLinkOf enc) (fst (traversal api rc p))) byName_strict_weak)
    as [Hperm Hsorted].
  split; [exact Hperm|].
  eapply StronglySorted_weaken; [|exact Hsorted]. intros a b. apply not_less_nameLe.
Qed.

(** X7.  Without the [stream] option, when the entries received for a path
    have pairwise different names, the links of its object are in the one
    order that is ascending by name: any ascending arrangement of the same
    links is the list [Run] emits, whatever [slices.SortFunc] does with
    equal elements. *)
Theorem unique_names_fix_the_order (req : Request) (env : Environment)
    (api : CoreAPI) (enc : Encoder) :
  SortFunc_contract SortFunc ->
  GetApi env = inr api ->
  ParseBodyArgs env = None ->
  GetCidEncoder env = inr enc ->
  boolOption req lsStreamOptionName = false ->
  let rc := boolOption req lsSizeOptionName || boolOption req lsResolveTypeOptionName in
  Forall (fun p => snd (traversal api rc p) = None) (Arguments req) ->
  exists groups : list LsObject.t,
    emitted (snd (Run req env initial)) = [ {| LsOutput.Objects := groups |} ]
    /\ Forall2
         (fun p g =>
            NoDup (map DirEntry.Name (fst (traversal api rc p))) ->
            forall l' : list LsLink.t,
              l' ≡ₚ map (lsLinkOf enc) (fst (traversal api rc p)) ->
              StronglySorted nameLe l' ->
              LsObject.Links g = l')
         (Arguments req) groups.
Proof.
  intros Hsort Hapi Hparse Henc Hstream rc Hall.
  destruct (Run_batch req env api enc Hapi Hparse Henc Hstream)
    as (st' & Hrun & Hem & _).
  fold rc in Hrun, Hem.
  destruct (attempted_all api rc (Arguments req) Hall) as [_ HfE].
  rewrite HfE in Hrun, Hem.
  exists (map (sortedGroup api enc rc) (Arguments req)).
  rewrite Hrun. cbn [fst snd]. split; [exact Hem|].
  clear Hall Hrun Hem HfE.
  induction (Arguments req) as [|p ps IH]; cbn [map]; constructor; [|exact IH].
  intros Hnd l' Hperm Hsorted.
  destruct (sortedGroup_sorted api enc rc p Hsort) as [Hp Hs].
  apply sorted_by_name_unique; [exact Hs | exact Hsorted | now rewrite Hp, Hperm |].
  rewrite Hp. rewrite map_map. cbn. exact Hnd.
Qed.

(** X4.  When one of the steps before the loop fails ([GetApi], then
    [ParseBodyArgs], then [GetCidEncoder]), [Run] returns the error of the
    first that fails, with or without the [stream] option, and has neither
    started a traversal nor handed anything to the emitter. *)
Theorem setup_error_is_returned (req : Request) (env : Environment) (e : Err) :
  setupError env = Some e ->
  fst (Run req env initial) = Error e
  /\ emitted (snd (Run req env initial)) = []
  /\ lsCalls (snd (Run req env initial)) = [].
Proof.
  unfold setupError, Run. intros H.
  destruct (GetApi env) as [e1|api].
  { injection H as <-. cbn. auto. }
  destruct (ParseBodyArgs env) as [e2|].
  { injection H as <-. cbn. auto. }
  destruct (GetCidEncoder env) as [e3|enc]; [|discriminate H].
  injection H as <-. cbn. auto.
Qed.

Lemma boolOption_withStream_stream b req :
  boolOption (withStream b req) lsStreamOptionName = b.
Proof. unfold boolOption, withStream. cbn [Options]. now rewrite lookup_insert_eq. Qed.

Lemma boolOption_withStream_other b req name :
  name <> lsStreamOptionName ->
  boolOption (withStream b req) name = boolOption req name.
Proof.
  intros H. unfold boolOption, withStream. cbn [Options].
  now rewrite lookup_insert_ne by congruence.
Qed.

Lemma allLinks_streamUnits enc p es :
  allLinks (streamUnits enc p es) = map (lsLinkOf enc) es.
Proof.
  unfold allLinks, streamUnits. induction es as [|e es IH]; [reflexivity|].
  cbn. f_equal. exact IH.
Qed.

Lemma allLinks_app vs ws : allLinks (vs ++ ws) = allLinks vs ++ allLinks ws.
Proof. unfold allLinks. apply flat_map_app. Qed.

(** X6.  With and without the [stream] option a run lists the same links:
    when the traversal of every requested path ends without error and the
    emitter accepts what it is handed, the links of the values emitted with
    the option set are, up to their order, those of the value emitted
    without it. *)
Theorem both_modes_list_the_same_links (req : Request) (env : Environment)
    (api : CoreAPI) (enc : Encoder) :
  SortFunc_contract SortFunc ->
  GetApi env = inr api ->
  ParseBodyArgs env = None ->
  GetCidEncoder env = inr enc ->
  (forall h u, sink h u = None) ->
  let rc := boolOption req lsSizeOptionName || boolOption req lsResolveTypeOptionName in
  Forall (fun p => snd (traversal api rc p) = None) (Arguments req) ->
  allLinks (emitted (snd (Run (withStream true req) env initial)))
  ≡ₚ allLinks (emitted (snd (Run (withStream false req) env initial))).
Proof.
  intros Hsort Hapi Hparse Henc Hsink rc Hall.
  rewrite (Run_stream (withStream true req) env api enc Hapi Hparse Henc
             (boolOption_withStream_stream _ _) Hsink).
  destruct (Run_batch (withStream false req) env api enc Hapi Hparse Henc
              (boolOption_withStream_stream _ _)) as (st' & Hrun & Hem & _).
  rewrite Hrun. cbn [snd emitted]. rewrite Hem.
  rewrite !boolOption_withStream_other by discriminate. fold rc.
  change (Arguments (withStream true req)) with (Arguments req).
  change (Arguments (withStream false req)) with (Arguments req).
  destruct (attempted_all api rc (Arguments req) Hall) as [Hatt HfE].
  rewrite Hatt, HfE. clear Hall Hatt HfE Hrun Hem.
  unfold allLinks at 2. cbn [flat_map LsOutput.Objects]. rewrite app_nil_r.
  induction (Arguments req) as [|p ps IH]; [reflexivity|].
  cbn [flat_map map]. rewrite allLinks_app, allLinks_streamUnits.
  apply Permutation_app; [|exact IH].
  symmetry. apply (sortedGroup_sorted api enc rc p Hsort).
Qed.

(** X5.  With the [stream] option, whatever the traversals and the emitter
    do, every value handed to the emitter holds exactly one object with
    exactly one link: the link built from an entry received for a requested
    path, under that path string as [Hash]. *)
Theorem streamed_values_are_single_links (req : Request) (env : Environment)
    (api : CoreAPI) (enc : Encoder) :
  GetApi env = inr api ->
  ParseBodyArgs env = None ->
  GetCidEncoder env = inr enc ->
  boolOption req lsStreamOptionName = true ->
  let rc := boolOption req lsSizeOptionName || boolOption req lsResolveTypeOptionName in
  Forall
    (fun v =>
       exists p e,
         p ∈ Arguments req /\ e ∈ fst (traversal api rc p)
         /\ v = {| LsOutput.Objects :=
                     [ {| LsObject.Hash := p; LsObject.Links := [lsLinkOf enc e] |} ] |})
    (emitted (snd (Run req env initial))).
Proof.
  intros Hapi Hparse Henc Hstream rc.
  destruct (Run_stream_prefix req env api enc Hapi Hparse Henc Hstream) as (k & -> & _).
  fold rc. apply Forall_take.
  apply Forall_forall. intros v Hv.
  apply list_elem_of_In, in_flat_map in Hv as (p & Hp & Hv).
  unfold streamUnits in Hv. apply in_map_iff in Hv as (e & <- & He).
  exists p, e. rewrite <- !list_elem_of_In in *. auto.
Qed.

End MoreDriverFacts.

Section MoreEndToEnd.
Context {imports : Imports} {printing : Printing}.

(** X8.  With the [stream] option, paths for which no entry is received
    leave no trace: nothing is handed to the emitter for them, so when no
    requested path yields an entry [PostRun] prints nothing at all, not
    even a label or a header. *)
Theorem streamed_empty_directories_print_nothing (req : Request) (env : Environment)
    (api : CoreAPI) (enc : Encoder) (final : option Err) :
  GetApi env = inr api ->
  ParseBodyArgs env = None ->
  GetCidEncoder env = inr enc ->
  boolOption req lsStreamOptionName = true ->
  let rc := boolOption req lsSizeOptionName || boolOption req lsResolveTypeOptionName in
  Forall (fun p => fst (traversal api rc p) = []) (Arguments req) ->
  emitted (snd (Run req env initial)) = []
  /\ PostRun req (emitted (snd (Run req env initial))) final = Some ("", final).
Proof.
  intros Hapi Hparse Henc Hstream rc Hall.
  destruct (Run_stream_prefix req env api enc Hapi Hparse Henc Hstream) as (k & Hk & _).
  fold rc in Hk.
  assert (E : flat_map (fun p => streamUnits enc p (fst (traversal api rc p)))
                (Arguments req) = []).
  { clear Hk. induction Hall as [|p ps Hp _ IH]; [reflexivity|].
    cbn [flat_map]. now rewrite Hp, IH. }
  rewrite E, take_nil in Hk. rewrite Hk. split; reflexivity.
Qed.

Lemma slashKind_ftypeOf t :
  NoDup [iface_TFile; iface_TDirectory; iface_TSymlink] ->
  slashKind (ftypeOf t) = bool_decide (t = iface_TDirectory).
Proof.
  intros Hnd.
  apply NoDup_cons in Hnd as [H1 Hnd]. apply NoDup_cons in Hnd as [H2 _].
  rewrite !elem_of_cons, elem_of_nil in H1. rewrite !elem_of_cons, elem_of_nil in H2.
  assert (D12 : iface_TFile <> iface_TDirectory) by tauto. clear H1 H2.
  unfold ftypeOf.
  destruct (Z.eqb_spec t iface_TFile) as [E1|N1].
  { subst t. now rewrite bool_decide_eq_false_2. }
  destruct (Z.eqb_spec t iface_TDirectory) as [E2|N2].
  { subst t. now rewrite bool_decide_eq_true_2. }
  rewrite bool_decide_eq_false_2 by exact N2.
  now destruct (t =? iface_TSymlink).
Qed.

(** X9.  A link built by [Run] is printed with [-] as its size and [/] after
    its name exactly when the traversal reported the entry as
    [iface.TDirectory]; every other entry is printed with its size and its
    bare name. *)
Theorem listed_directories_get_the_slash (enc : Encoder) (e : DirEntry.t)
    (size : bool) (tw : string) :
  NoDup [iface_TFile; iface_TDirectory; iface_TSymlink] ->
  writeLink size tw (lsLinkOf enc e)
  = Some (tw +:+ (if bool_decide (DirEntry.Type_ e = iface_TDirectory)
                  then slashRow size (lsLinkOf enc e)
                  else plainRow size (lsLinkOf enc e))).
Proof.
  intros Hnd. rewrite writeLink_row. unfold row.
  cbn [lsLinkOf LsLink.Type_]. now rewrite (slashKind_ftypeOf _ Hnd).
Qed.

End MoreEndToEnd.

(** ** A streamed run, printed *)

Section StreamedRunPrinted.

Context {imports : Imports} {printing : Printing}.

Lemma joined_streamUnits enc p es :
  LsOutput.Objects (joined (streamUnits enc p es))
  = map (fun l => {| LsObject.Hash := p; LsObject.Links := [l] |}) (map (lsLinkOf enc) es).
Proof.
  unfold joined, streamUnits. cbn [LsOutput.Objects].
  induction es as [|e es IH]; [reflexivity|]. cbn. f_equal. exact IH.
Qed.

Lemma joined_app vs ws :
  LsOutput.Objects (joined (vs ++ ws))
  = LsOutput.Objects (joined vs) ++ LsOutput.Objects (joined ws).
Proof. unfold joined. cbn [LsOutput.Objects]. now rewrite fmap_app, concat_app. Qed.

Lemma unitCells_streamed_paths headers size multipleFolders ignoreBreaks enc
    (entries : string -> list DirEntry.t) ps :
  forall prior,
    unitCells headers size multipleFolders ignoreBreaks prior
      (LsOutput.Objects (joined (flat_map (fun p => streamUnits enc p (entries p)) ps)))
    = unitCells headers size multipleFolders ignoreBreaks prior
        (map (fun p => {| LsObject.Hash := p;
                          LsObject.Links := map (lsLinkOf enc) (entries p) |})
           (List.filter (fun p => if entries p is [] then false else true) ps)).
Proof.
  induction ps as [|p ps IH]; intros prior; [reflexivity|].
  cbn [flat_map List.filter]. rewrite joined_app, unitCells_app, joined_streamUnits.
  destruct (entries p) as [|e es] eqn:E.
  - cbn [map unitCells fst snd]. rewrite append_nil_l, IH.
    now destruct (unitCells _ _ _ _ _ _).
  - cbn [map]. rewrite (unitCells_stream _ _ _ _ _ _ (map (lsLinkOf enc) es) [lsLinkOf enc e]).
    cbn [app]. rewrite IH.
    cbn [unitCells fst snd map]. rewrite E. cbn [map]. now rewrite append_nil_r.
Qed.

(** X16.  With the [stream] option, when every traversal ends without error
    and the emitter accepts what it is handed, printing the emitted values
    one by one as [PostRun] does writes to the tabwriters what one value
    writes that holds, for each requested path with at least one entry, in
    request order, one object with the links of all its entries in the
    order received: the table of a run without the option, unsorted and
    without the groups of the paths that have no entry. *)
Theorem streamed_run_prints_unsorted_groups (req : Request) (env : Environment)
    (api : CoreAPI) (enc : Encoder) :
  GetApi env = inr api ->
  ParseBodyArgs env = None ->
  GetCidEncoder env = inr enc ->
  boolOption req lsStreamOptionName = true ->
  (forall h u, sink h u = None) ->
  let rc := boolOption req lsSizeOptionName || boolOption req lsResolveTypeOptionName in
  Forall (fun p => snd (traversal api rc p) = None) (Arguments req) ->
  (fun r => (joinText (fst r), snd r))
    <$> threadCells req false (emitted (snd (Run req env initial))) ""
  = tabularCells req
      {| LsOutput.Objects :=
           map (fun p => {| LsObject.Hash := p;
                            LsObject.Links :=
                              map (lsLinkOf enc) (fst (traversal api rc p)) |})
             (List.filter (fun p => if fst (traversal api rc p) is [] then false else true)
                (Arguments req)) |}
      "" false.
Proof.
  intros Hapi Hparse Henc Hstream Hsink rc Hall.
  rewrite (Run_stream req env api enc Hapi Hparse Henc Hstream Hsink). fold rc.
  destruct (attempted_all api rc (Arguments req) Hall) as [Hatt _]. rewrite Hatt.
  cbn [snd emitted].
  destruct (threadCells_cells req false
              (flat_map (fun p => streamUnits enc p (fst (traversal api rc p)))
                 (Arguments req)) "") as (tws & -> & Hjoin).
  rewrite tabularCells_cells. cbn [fmap option_fmap option_map fst snd LsOutput.Objects].
  rewrite Hjoin.
  rewrite (unitCells_streamed_paths _ _ _ _ enc (fun p => fst (traversal api rc p))).
  f_equal. symmetry. apply surjective_pairing.
Qed.

End StreamedRunPrinted.

(** ** Examples of the further properties *)

Lemma rejected_value_ends_run_example :
  2%nat = length (emitted (snd (Run (imports := DemoMore.imports)
                                  (Demo.request ["/a"] false true) Demo.env initial)))
  /\ fst (Run (imports := DemoMore.imports)
            (Demo.request ["/a"] false true) Demo.env initial)
     = Error "broken pipe".
Proof.
  apply (rejected_value_ends_run (imports := DemoMore.imports)
           (Demo.request ["/a"] false true) Demo.env 1
           {| LsOutput.Objects :=
                [ {| LsObject.Hash := "/a";
                     LsObject.Links :=
                       [LsLink.mk "b" "Qmcb" 3 unixfs.TDirectory "" 493%N 6] |} ] |}
           "broken pipe").
  - vm_compute. reflexivity.
  - vm_compute. reflexivity.
Defined.

Lemma batch_all_or_nothing_example :
  emitted (snd (Run (imports := Demo.imports)
                  (Demo.request ["/a"; "/x"] false false) Demo.env initial)) = []
  \/ exists v, emitted (snd (Run (imports := Demo.imports)
                               (Demo.request ["/a"; "/x"] false false) Demo.env initial))
               = [v].
Proof.
  destruct (batch_all_or_nothing (imports := Demo.imports)
              (Demo.request ["/a"; "/x"] false false) Demo.env Demo.api Demo.enc
              eq_refl eq_refl eq_refl ltac:(vm_compute; reflexivity))
    as [[_ (v & Hv & _)]|(e & _ & _ & He)].
  - right. exists v. exact Hv.
  - left. exact He.
Defined.

Lemma setup_error_is_returned_example :
  fst (Run (imports := Demo.imports) (Demo.request ["/a"] false false)
         DemoMore.noEncoder initial)
  = Error "invalid cid base".
Proof.
  exact (proj1 (setup_error_is_returned (imports := Demo.imports)
                  (Demo.request ["/a"] false false) DemoMore.noEncoder
                  "invalid cid base" eq_refl)).
Defined.

Lemma streamed_values_are_single_links_example :
  Forall (fun v => length (LsOutput.Objects v) = 1%nat)
    (emitted (snd (Run (imports := Demo.imports)
                     (Demo.request ["/a"; "/x"] false true) Demo.env initial))).
Proof.
  eapply Forall_impl.
  - apply (streamed_values_are_single_links (imports := Demo.imports)
             (Demo.request ["/a"; "/x"] false true) Demo.env Demo.api Demo.enc
             eq_refl eq_refl eq_refl).
    vm_compute. reflexivity.
  - intros v (p & e & _ & _ & ->). reflexivity.
Defined.

Lemma both_modes_list_the_same_links_example :
  allLinks (emitted (snd (Run (imports := Demo.imports)
                            (withStream true (Demo.request ["/a"; "/b"] false false))
                            Demo.env initial)))
  ≡ₚ allLinks (emitted (snd (Run (imports := Demo.imports)
                               (withStream false (Demo.request ["/a"; "/b"] false false))
                               Demo.env initial))).
Proof.
  apply (both_modes_list_the_same_links (imports := Demo.imports)
           (Demo.request ["/a"; "/b"] false false) Demo.env Demo.api Demo.enc
           Demo_sort_contract eq_refl eq_refl eq_refl (fun _ _ => eq_refl)).
  repeat constructor.
Defined.

Lemma unique_names_fix_the_order_example :
  exists groups : list LsObject.t,
    emitted (snd (Run (imports := Demo.imports)
                    (Demo.request ["/a"] false false) Demo.env initial))
    = [ {| LsOutput.Objects := groups |} ].
Proof.
  destruct (unique_names_fix_the_order (imports := Demo.imports)
              (Demo.request ["/a"] false false) Demo.env Demo.api Demo.enc
              Demo_sort_contract eq_refl eq_refl eq_refl
              ltac:(vm_compute; reflexivity) ltac:(repeat constructor))
    as (groups & Hem & _).
  exists groups. exact Hem.
Defined.

Lemma streamed_empty_directories_print_nothing_example :
  emitted (snd (Run (imports := Demo.imports)
                  (Demo.request ["/e"; "/e"] true true) Demo.env initial)) = []
  /\ PostRun (printing := Demo.printing) (Demo.request ["/e"; "/e"] true true)
       (emitted (snd (Run (imports := Demo.imports)
                        (Demo.request ["/e"; "/e"] true true) Demo.env initial)))
       None
     = Some ("", None).
Proof.
  apply (streamed_empty_directories_print_nothing (imports := Demo.imports)
           (printing := Demo.printing)
           (Demo.request ["/e"; "/e"] true true) Demo.env Demo.api Demo.enc None
           eq_refl eq_refl eq_refl).
  - vm_compute. reflexivity.
  - repeat constructor.
Defined.

Lemma listed_directories_get_the_slash_example :
  writeLink (printing := Demo.printing) true ""
    (lsLinkOf (imports := Demo.imports) Demo.enc (DirEntry.mk "m" "cm" 2 2 "" 493%N 7))
  = Some (lit "Qmcm\t-\tm/\n").
Proof.
  rewrite (listed_directories_get_the_slash (imports := Demo.imports)
             (printing := Demo.printing) Demo.enc
             (DirEntry.mk "m" "cm" 2 2 "" 493%N 7) true "").
  - vm_compute. reflexivity.
  - repeat constructor; rewrite ?elem_of_cons, ?elem_of_nil; cbn; intuition discriminate.
Defined.

Lemma streamed_directory_prints_as_one_group_example :
  (fun r => (joinText (fst r), snd r))
    <$> threadCells (printing := Demo.printing) (Demo.request ["/a"; "/b"] true true) false
          (streamUnits (imports := Demo.imports) Demo.enc "/a"
             [DirEntry.mk "z" "cz" 1 1 "" 420%N 5; DirEntry.mk "b" "cb" 3 2 "" 493%N 6])
          ""
  = Some (lit "/a:\nHash\tSize\tName\nQmcz\t1\tz\nQmcb\t-\tb/\n", "/a").
Proof.
  rewrite (streamed_directory_prints_as_one_group (imports := Demo.imports)
             (printing := Demo.printing) (Demo.request ["/a"; "/b"] true true) Demo.enc "/a"
             [DirEntry.mk "z" "cz" 1 1 "" 420%N 5; DirEntry.mk "b" "cb" 3 2 "" 493%N 6]
             "" false).
  - vm_compute. reflexivity.
  - discriminate.
Defined.

Lemma groups_separated_by_one_empty_line_example :
  tabularCells (printing := Demo.printing) (Demo.request ["/a"; "/b"] true false)
    {| LsOutput.Objects :=
         [ {| LsObject.Hash := "/a"; LsObject.Links := [Demo.fileZ] |};
           {| LsObject.Hash := "/b"; LsObject.Links := [DemoMore.dirM] |} ] |}
    "" false
  = Some (lit "/a:\nHash\tSize\tName\nQmcz\t1\tz\n\n/b:\nHash\tSize\tName\nQmcm\t-\tm/\n",
          "/b").
Proof.
  rewrite (groups_separated_by_one_empty_line (printing := Demo.printing)
             (Demo.request ["/a"; "/b"] true false)
             {| LsObject.Hash := "/a"; LsObject.Links := [Demo.fileZ] |}
             [ {| LsObject.Hash := "/b"; LsObject.Links := [DemoMore.dirM] |} ]).
  - vm_compute. reflexivity.
  - cbn. lia.
  - repeat constructor; discriminate.
  - intros i a b Ha Hb. destruct i as [|[|i]]; cbn in Ha, Hb; try discriminate Hb.
    injection Ha as <-. injection Hb as <-. discriminate.
Defined.

Lemma row_shows_hash_name_size_only_example :
  writeLink (printing := Demo.printing) true "" Demo.fileZ
  = writeLink (printing := Demo.printing) true "" DemoMore.linkZ.
Proof.
  apply (row_shows_hash_name_size_only (printing := Demo.printing) true ""
           Demo.fileZ DemoMore.linkZ); reflexivity.
Defined.

Lemma text_encoder_agrees_with_PostRun_example :
  PostRun (printing := Demo.printing) (Demo.request ["/a"] true false)
    [ {| LsOutput.Objects := [ {| LsObject.Hash := "/a"; LsObject.Links := [Demo.fileZ] |} ] |} ]
    None
  = (fun text => (text, None))
      <$> TextEncoder (printing := Demo.printing) (Demo.request ["/a"] true false)
            {| LsOutput.Objects :=
                 [ {| LsObject.Hash := "/a"; LsObject.Links := [Demo.fileZ] |} ] |}.
Proof.
  apply (text_encoder_agrees_with_PostRun (printing := Demo.printing)).
  vm_compute. reflexivity.
Defined.

Lemma streamed_run_prints_unsorted_groups_example :
  (fun r => (joinText (fst r), snd r))
    <$> threadCells (printing := Demo.printing) (Demo.request ["/a"; "/e"; "/b"] true true)
          false
          (emitted (snd (Run (imports := Demo.imports)
                           (Demo.request ["/a"; "/e"; "/b"] true true) Demo.env initial)))
          ""
  = Some (lit "/a:\nHash\tSize\tName\nQmcz\t1\tz\nQmcb\t-\tb/\n\n/b:\nHash\tSize\tName\nQmcm\t-\tm/\n",
          "/b").
Proof.
  rewrite (streamed_run_prints_unsorted_groups (imports := Demo.imports)
             (printing := Demo.printing)
             (Demo.request ["/a"; "/e"; "/b"] true true) Demo.env Demo.api Demo.enc
             eq_refl eq_refl eq_refl).
  - vm_compute. reflexivity.
  - vm_compute. reflexivity.
  - intros h u. reflexivity.
  - repeat constructor.
Defined.
